(** * fix_layers.py: the layer-migration script, embedded and verified

    The script reads a Dart source file, runs nine [re.sub] rewrites over
    its text, replaces the [_createResult] method found by one [re.search],
    and writes the text back.

    Python strings are sequences of Unicode code points; a text is a list
    of code points here.  The part of Python's [re] module that the script
    relies on (the pattern syntax it uses, the backtracking matcher, the
    replacement-template parser, [re.sub], [re.search]) and [str.replace]
    are embedded as executable functions, following CPython 3.7 and later
    (the script needs 3.6 for its f-string). *)

From Stdlib Require Import NArith List String Ascii Lia Bool Arith.
From stdpp Require Import base option list gmap strings.
Import ListNotations.

Unset Default Proof Using.

(** ** Text *)

Definition char := N.
Definition text := list char.

Definition str (s : string) : text :=
  List.map N_of_ascii (list_ascii_of_string s).
Arguments str _%_string.

Definition NL : char := 10%N.
Definition BACKSLASH : char := 92%N.
Definition QUOTE : char := 39%N.

(** [lines [l1; ...; ln]] is [l1 + "\n" + ... + "\n" + ln]. *)
Fixpoint lines (ls : list string) : text :=
  match ls with
  | [] => []
  | [l] => str l
  | l :: ls' => str l ++ NL :: lines ls'
  end.

Definition chr (s : string) : char :=
  match str s with c :: _ => c | [] => 0%N end.
Arguments chr _%_string.

Fixpoint startswith (w s : text) : bool :=
  match w, s with
  | [], _ => true
  | a :: w', b :: s' => N.eqb a b && startswith w' s'
  | _ :: _, [] => false
  end.

(** [occurs w s]: [w] is a substring of [s]. *)
Definition occurs (w s : text) : Prop := exists a b, s = a ++ w ++ b.

Fixpoint occursb (w s : text) : bool :=
  startswith w s || match s with [] => false | _ :: s' => occursb w s' end.

(** ** Errors *)

Inductive error :=
| ReError          (* re.error, or the IndexError of an unknown group name *)
| ReadError        (* open/read of the file failed *)
| EncodeError      (* UnicodeEncodeError: the text has no UTF-8 encoding *)
| WriteError.      (* OSError of open(..., 'w'), or while the text is stored *)

Inductive result (A : Type) :=
| Ok (a : A)
| Err (e : error).
Arguments Ok {A} a.
Arguments Err {A} e.

Definition bind {A B} (r : result A) (k : A -> result B) : result B :=
  match r with Ok a => k a | Err e => Err e end.

Notation "'let!' x ':=' r 'in' k" := (bind r (fun x => k))
  (at level 10, x name, r at level 100, k at level 200).

(** ** Patterns

    The compiled form of a pattern is a list of operations, as in
    CPython's SRE: literals, single-character classes, repetition of a
    single-character item (SRE's MAX_REPEAT_ONE / MIN_REPEAT_ONE) and group
    marks (MARK 2g-2 opens group g, MARK 2g-1 closes it). *)

Inductive cclass :=
| CAny (dotall : bool)     (* .      *)
| CSpace                   (* \s     *)
| CNot (c : char)          (* [^c]   *)
| CChar (c : char).        (* c, under a quantifier *)

(** [str.isspace] on a code point: what [\s] matches in a str pattern. *)
Definition is_space (c : char) : bool :=
  ((9 <=? c) && (c <=? 13) || (28 <=? c) && (c <=? 32)
   || (c =? 133) || (c =? 160) || (c =? 5760)
   || (8192 <=? c) && (c <=? 8202)
   || (c =? 8232) || (c =? 8233) || (c =? 8239) || (c =? 8287)
   || (c =? 12288))%N.

Definition in_class (k : cclass) (c : char) : bool :=
  match k with
  | CAny dotall => dotall || negb (N.eqb c NL)
  | CSpace => is_space c
  | CNot x => negb (N.eqb c x)
  | CChar x => N.eqb c x
  end.

Inductive op :=
| Lit (c : char)
| OneOf (k : cclass)
| Repeat (greedy : bool) (lo : nat) (k : cclass)
| Mark (i : nat).

Definition pattern := list op.

Definition lits (w : text) : pattern := List.map Lit w.

(** *** Pattern syntax

    [parse] reads the pattern syntax the script uses: ordinary characters,
    [.], [\s], [\n], escaped punctuation, [[^c]], capture groups, and the
    quantifiers [*], [+], [*?], [+?] after a single-character item.  Any
    other construct is refused ([None]). *)

Definition is_digit (c : char) : bool := ((48 <=? c) && (c <=? 57))%N.
Definition is_octdigit (c : char) : bool := ((48 <=? c) && (c <=? 55))%N.
Definition is_letter (c : char) : bool :=
  ((65 <=? c) && (c <=? 90) || (97 <=? c) && (c <=? 122))%N.

Definition is_special (c : char) : bool :=
  existsb (N.eqb c) (str ".^$*+?{}[]|()\").

Definition quantify (greedy : bool) (lo : nat) (acc : list op)
  : option (list op) :=
  match acc with
  | Lit c :: acc' => Some (Repeat greedy lo (CChar c) :: acc')
  | OneOf k :: acc' => Some (Repeat greedy lo k :: acc')
  | _ => None
  end.

Fixpoint parse (dotall : bool) (s : text) (acc : list op)
    (opened : list nat) (groups : nat) : option (pattern * nat) :=
  match s with
  | [] => match opened with [] => Some (rev acc, groups) | _ => None end
  | c :: s' =>
    if N.eqb c BACKSLASH then
      match s' with
      | [] => None
      | d :: s'' =>
        if N.eqb d (chr "s") then parse dotall s'' (OneOf CSpace :: acc) opened groups
        else if N.eqb d (chr "n") then parse dotall s'' (Lit NL :: acc) opened groups
        else if is_letter d || is_digit d then None
        else parse dotall s'' (Lit d :: acc) opened groups
      end
    else if N.eqb c (chr ".") then
      parse dotall s' (OneOf (CAny dotall) :: acc) opened groups
    else if N.eqb c (chr "[") then
      match s' with
      | h :: x :: b :: s'' =>
        if N.eqb h (chr "^") && N.eqb b (chr "]") && negb (is_special x)
        then parse dotall s'' (OneOf (CNot x) :: acc) opened groups
        else None
      | _ => None
      end
    else if N.eqb c (chr "(") then
      parse dotall s' (Mark (2 * groups) :: acc) (groups :: opened) (S groups)
    else if N.eqb c (chr ")") then
      match opened with
      | g :: opened' => parse dotall s' (Mark (2 * g + 1) :: acc) opened' groups
      | [] => None
      end
    else if N.eqb c (chr "*") || N.eqb c (chr "+") then
      let lo := if N.eqb c (chr "+") then 1 else 0 in
      match s' with
      | q :: s'' =>
        if N.eqb q (chr "?") then
          match quantify false lo acc with
          | Some acc' => parse dotall s'' acc' opened groups
          | None => None
          end
        else
          match quantify true lo acc with
          | Some acc' => parse dotall s' acc' opened groups
          | None => None
          end
      | [] =>
        match quantify true lo acc with
        | Some acc' => parse dotall s' acc' opened groups
        | None => None
        end
      end
    else if is_special c then None
    else parse dotall s' (Lit c :: acc) opened groups
  end.

(** A compiled pattern: its operations and its number of groups. *)
Record regex := { ops : pattern; ngroups : nat }.

(** [re.compile(src, flags)]; [dotall] is [re.DOTALL].  [re.MULTILINE]
    only changes [^] and [$], which the script's patterns do not use. *)
Definition compile (dotall : bool) (src : string) : regex :=
  match parse dotall (str src) [] [] 0 with
  | Some (p, g) => {| ops := p; ngroups := g |}
  | None => {| ops := [Lit 0%N; Mark 0]; ngroups := 0 |}
  end.
Arguments compile dotall src%_string.

(** *** The matcher

    [exec p s pos mk] runs [p] on [s]; [pos] counts the characters consumed
    since the start of the match, [mk] holds the marks set so far (latest
    first).  Alternatives are tried in SRE's order: a greedy repeat takes
    as many characters as it can and gives them back one at a time, a lazy
    repeat takes as few as it can and adds one at a time. *)

Definition marks := list (nat * nat).

(** The two loops of a repeat; [k] runs the rest of the pattern, [n]
    counts the characters the repeat has taken. *)
Fixpoint greedy (c : cclass) (lo : nat)
    (k : text -> nat -> option (nat * marks))
    (s : text) (n pos : nat) : option (nat * marks) :=
  match s with
  | x :: s' =>
    if in_class c x then
      match greedy c lo k s' (S n) (S pos) with
      | Some r => Some r
      | None => if lo <=? n then k s pos else None
      end
    else if lo <=? n then k s pos else None
  | [] => if lo <=? n then k s pos else None
  end.

Fixpoint lazy (c : cclass) (lo : nat)
    (k : text -> nat -> option (nat * marks))
    (s : text) (n pos : nat) : option (nat * marks) :=
  match (if lo <=? n then k s pos else None) with
  | Some r => Some r
  | None =>
    match s with
    | x :: s' => if in_class c x then lazy c lo k s' (S n) (S pos) else None
    | [] => None
    end
  end.

Fixpoint exec (p : pattern) (s : text) (pos : nat) (mk : marks)
  : option (nat * marks) :=
  match p with
  | [] => Some (pos, mk)
  | Lit c :: p' =>
    match s with
    | x :: s' => if N.eqb x c then exec p' s' (S pos) mk else None
    | [] => None
    end
  | OneOf c :: p' =>
    match s with
    | x :: s' => if in_class c x then exec p' s' (S pos) mk else None
    | [] => None
    end
  | Mark i :: p' => exec p' s pos ((i, pos) :: mk)
  | Repeat true lo c :: p' =>
    greedy c lo (fun s' pos' => exec p' s' pos' mk) s 0 pos
  | Repeat false lo c :: p' =>
    lazy c lo (fun s' pos' => exec p' s' pos' mk) s 0 pos
  end.

(** A match of [r] anchored at the head of [s]: its length and marks. *)
Definition match_at (r : regex) (s : text) : option (nat * marks) :=
  exec (ops r) s 0 [].

Fixpoint mark (i : nat) (mk : marks) : option nat :=
  match mk with
  | [] => None
  | (j, v) :: mk' => if Nat.eqb i j then Some v else mark i mk'
  end.

Definition slice (s : text) (b e : nat) : text := firstn (e - b) (skipn b s).

(** [m.group(g)] for a match of length [n] at the head of [s]; a group
    that did not take part yields the empty string in a template. *)
Definition group (s : text) (n : nat) (mk : marks) (g : nat) : text :=
  match g with
  | 0 => firstn n s
  | S g' =>
    match mark (2 * g') mk, mark (2 * g' + 1) mk with
    | Some b, Some e => slice s b e
    | _, _ => []
    end
  end.

(** [re.search]: the leftmost position with a match. *)
Fixpoint search_from (r : regex) (s : text) (i : nat)
  : option (nat * nat * marks) :=
  match match_at r s with
  | Some (n, mk) => Some (i, n, mk)
  | None =>
    match s with
    | [] => None
    | _ :: s' => search_from r s' (S i)
    end
  end.

Definition re_search (r : regex) (s : text) : option (nat * nat * marks) :=
  search_from r s 0.

(** *** Replacement templates

    [parse_template] follows [re._parser.parse_template]: a backslash
    starts a group reference ([\1] .. [\99], [\g<n>]), an octal escape, one
    of the escapes [\a \b \f \n \r \t \v \\], or, before a character that
    is not an ASCII letter or digit, stands for itself together with that
    character.  A backslash before another letter, at the end, or a
    reference to a group the pattern does not have, is an error.  The
    script's patterns have no named groups, so [\g<name>] is an error as
    well; a group number in [\g<n>] is a string of ASCII digits, as in
    CPython 3.12 (earlier versions also take a sign, blanks or
    underscores, with a warning). *)

Inductive titem :=
| TChar (c : char)
| TGroup (g : nat).

Definition template := list titem.

Definition digit_val (c : char) : nat := N.to_nat (c - 48).

Definition number (ds : text) : nat :=
  fold_left (fun acc d => 10 * acc + digit_val d) ds 0.

Definition octal (ds : text) : N :=
  fold_left (fun acc d => 8 * acc + (d - 48))%N ds 0%N.

Fixpoint getuntil (stop : char) (s : text) : option (text * text) :=
  match s with
  | [] => None
  | c :: s' =>
    if N.eqb c stop then Some ([], s')
    else match getuntil stop s' with
         | Some (name, rest) => Some (c :: name, rest)
         | None => None
         end
  end.

Definition escape (d : char) : option char :=
  if N.eqb d (chr "a") then Some 7%N
  else if N.eqb d (chr "b") then Some 8%N
  else if N.eqb d (chr "f") then Some 12%N
  else if N.eqb d (chr "n") then Some 10%N
  else if N.eqb d (chr "r") then Some 13%N
  else if N.eqb d (chr "t") then Some 9%N
  else if N.eqb d (chr "v") then Some 11%N
  else if N.eqb d BACKSLASH then Some BACKSLASH
  else None.

Definition addgroup (groups index : nat) (rest : result template)
  : result template :=
  if index <=? groups then let! t := rest in Ok (TGroup index :: t)
  else Err ReError.

Definition addchar (c : char) (rest : result template) : result template :=
  let! t := rest in Ok (TChar c :: t).

Fixpoint parse_template_from (fuel groups : nat) (s : text)
  : result template :=
  match fuel with
  | 0 => Ok []
  | S fuel' =>
    let continue := parse_template_from fuel' groups in
    match s with
    | [] => Ok []
    | c :: s1 =>
      if negb (N.eqb c BACKSLASH) then addchar c (continue s1)
      else
        match s1 with
        | [] => Err ReError
        | d :: s2 =>
          if N.eqb d (chr "g") then
            match s2 with
            | [] => Err ReError
            | lt :: s3 =>
              if negb (N.eqb lt (chr "<")) then Err ReError
              else
                match getuntil (chr ">") s3 with
                | None => Err ReError
                | Some (name, s4) =>
                  if negb (forallb is_digit name) || (length name =? 0)
                  then Err ReError
                  else addgroup groups (number name) (continue s4)
                end
            end
          else if N.eqb d (chr "0") then
            match s2 with
            | e :: s3 =>
              if is_octdigit e then
                match s3 with
                | f :: s4 =>
                  if is_octdigit f
                  then addchar (N.land (octal [e; f]) 255) (continue s4)
                  else addchar (octal [e]) (continue s3)
                | [] => addchar (octal [e]) (continue s3)
                end
              else addchar 0%N (continue s2)
            | [] => addchar 0%N (continue s2)
            end
          else if is_digit d then
            match s2 with
            | e :: s3 =>
              if is_digit e then
                match s3 with
                | f :: s4 =>
                  if is_octdigit d && is_octdigit e && is_octdigit f then
                    if (255 <? octal [d; e; f])%N then Err ReError
                    else addchar (octal [d; e; f]) (continue s4)
                  else addgroup groups (number [d; e]) (continue s3)
                | [] => addgroup groups (number [d; e]) (continue s3)
                end
              else addgroup groups (number [d]) (continue s2)
            | [] => addgroup groups (number [d]) (continue s2)
            end
          else
            match escape d with
            | Some x => addchar x (continue s2)
            | None =>
              if is_letter d then Err ReError
              else addchar BACKSLASH (addchar d (continue s2))
            end
        end
    end
  end.

Definition parse_template (groups : nat) (repl : text) : result template :=
  parse_template_from (S (length repl)) groups repl.

(** The template that [re.sub] uses for the replacement string [repl]: a
    string without a backslash is taken literally, any other string is
    parsed, before the text is searched. *)
Definition has_backslash (t : text) : bool := existsb (N.eqb BACKSLASH) t.

Definition compile_template (r : regex) (repl : text) : result template :=
  if has_backslash repl then parse_template (ngroups r) repl
  else Ok (List.map TChar repl).

(** The replacement for a match of length [n] with marks [mk] at the head
    of [s]. *)
Fixpoint expand (t : template) (s : text) (n : nat) (mk : marks) : text :=
  match t with
  | [] => []
  | TChar c :: t' => c :: expand t' s n mk
  | TGroup g :: t' => group s n mk g ++ expand t' s n mk
  end.

(** *** [re.sub]

    The scan of [re.sub]: try a match at the current position; on a match
    emit the replacement and go on after the match, otherwise copy one
    character.  [skip] counts the characters of [s] that the last match
    still covers.  A match of the empty string emits the replacement and
    copies the next character; no pattern of the script can match the empty
    string. *)

Fixpoint sub_scan (r : regex) (t : template) (s : text) (skip : nat)
  : text :=
  match skip with
  | S k =>
    match s with
    | [] => []
    | _ :: s' => sub_scan r t s' k
    end
  | 0 =>
    match match_at r s with
    | Some (S n, mk) =>
      expand t s (S n) mk ++
      match s with
      | [] => []
      | _ :: s' => sub_scan r t s' n
      end
    | Some (0, mk) =>
      expand t s 0 mk ++
      match s with
      | [] => []
      | c :: s' => c :: sub_scan r t s' 0
      end
    | None =>
      match s with
      | [] => []
      | c :: s' => c :: sub_scan r t s' 0
      end
    end
  end.

Definition re_sub (r : regex) (repl : text) (s : text) : result text :=
  let! t := compile_template r repl in Ok (sub_scan r t s 0).

(** *** [str.replace]

    Every occurrence of [old], found left to right without overlap, gives
    way to [new]; an empty [old] puts [new] before every character and at
    the end. *)

Fixpoint replace_scan (old new : text) (s : text) (skip : nat) : text :=
  match skip with
  | S k =>
    match s with
    | [] => []
    | _ :: s' => replace_scan old new s' k
    end
  | 0 =>
    match s with
    | [] => []
    | c :: s' =>
      if startswith old s then new ++ replace_scan old new s' (length old - 1)
      else c :: replace_scan old new s' 0
    end
  end.

Definition str_replace (s old new : text) : text :=
  match old with
  | [] => new ++ flat_map (fun c => c :: new) s
  | _ :: _ => replace_scan old new s 0
  end.

(** ** The script *)

(** The replacement of the description rule: the f-string of the script,
    with [layer_description] and [layer_priority] put in as they are. *)
Definition description_getter (layer_description layer_priority : text)
  : text :=
  lines ["@override";
         "  String get name => layerName;";
         "";
         "  @override";
         "  String get description => '"]
  ++ layer_description
  ++ lines ["';";
            "";
            "  @override";
            "  LayerPriority get priority => LayerPriority."]
  ++ layer_priority
  ++ str ";".

Definition new_create_result : text :=
  lines ["LayerResult _createResult(";
         "    String processedText,";
         "    bool success, ";
         "    Stopwatch stopwatch, ";
         "    DateTime startTime,";
         "    [String? error,";
         "    Map<String, dynamic>? additionalInfo]";
         "  ) {";
         "    stopwatch.stop();";
         "    ";
         "    final debugInfo = LayerDebugInfo(";
         "      layerName: name,";
         "      processingTimeMs: stopwatch.elapsedMilliseconds,";
         "      isSuccessful: success,";
         "      hasError: error != null,";
         "      errorMessage: error,";
         "      additionalInfo: additionalInfo ?? {},";
         "    );";
         "";
         "    if (success) {";
         "      return LayerResult.success(";
         "        processedText: processedText,";
         "        debugInfo: debugInfo,";
         "      );";
         "    } else {";
         "      return LayerResult.error(";
         "        originalText: processedText,";
         "        errorMessage: error ?? 'Unknown error',";
         "        debugInfo: debugInfo,";
         "      );";
         "    }";
         "  }"].

(** The patterns, in the order the script uses them. *)
Definition re_import_result : regex :=
  compile false "import '../models/translation_result\.dart';\n".
Definition re_import_exceptions : regex :=
  compile false "import '../utils/exceptions\.dart';\n".
Definition re_getters : regex :=
  compile false "(@override\n  String get name => layerName;\n\n  @override\n  int get priority => layerPriority;)".
Definition re_canHandle : regex :=
  compile false "bool canHandle\(TranslationContext context\)".
Definition re_process : regex :=
  compile false "Future<LayerResult> process\(TranslationContext context\)".
Definition re_debugInfo : regex :=
  compile true "final debugInfo = LayerDebugInfo\(\s*layerName: name,\s*startTime: DateTime\.now\(\),\s*\);".
Definition re_currentText : regex :=
  compile false "String currentText = context\.translatedText \?\? '';".
Definition re_call : regex :=
  compile false "return _createResult\(false, context, stopwatch, debugInfo, '([^']+)'\);".
Definition re_details : regex :=
  compile false "debugInfo\.details\['([^']+)'\] = ([^;]+);".
Definition re_create_result : regex :=
  compile true "LayerResult _createResult\(\s*.*?\s*\) \{.*?\}".

(** The replacement strings of the rules that do not depend on the layer. *)
Definition new_canHandle : text :=
  str "bool canHandle(String text, TranslationContext context)".
Definition new_process : text :=
  str "Future<LayerResult> process(String text, TranslationContext context)".
Definition new_debugInfo : text := str "final startTime = DateTime.now();".
Definition new_currentText : text :=
  str "String currentText = context.translatedText ?? text;".
Definition new_call : text :=
  str "return _createResult(text, false, stopwatch, startTime, '\1');".
Definition new_details : text := str "// \1: \2 (moved to additionalInfo)".

(** The single rewrites of [fix_layer_file], one per [re.sub] call. *)
Definition fix_import_result : text -> result text :=
  re_sub re_import_result [].
Definition fix_import_exceptions : text -> result text :=
  re_sub re_import_exceptions [].
Definition fix_getters (layer_description layer_priority : text)
  : text -> result text :=
  re_sub re_getters (description_getter layer_description layer_priority).
Definition fix_canHandle : text -> result text :=
  re_sub re_canHandle new_canHandle.
Definition fix_process : text -> result text :=
  re_sub re_process new_process.
Definition fix_debugInfo : text -> result text :=
  re_sub re_debugInfo new_debugInfo.
Definition fix_currentText : text -> result text :=
  re_sub re_currentText new_currentText.
Definition fix_call : text -> result text :=
  re_sub re_call new_call.
Definition fix_details : text -> result text :=
  re_sub re_details new_details.

(** The block step: [re.search] for the old [_createResult] method and,
    if it is found, [content.replace(old_create_result.group(0), ...)]. *)
Definition fix_create_result (content : text) : text :=
  match re_search re_create_result content with
  | Some (i, n, mk) =>
    str_replace content (group (skipn i content) n mk 0) new_create_result
  | None => content
  end.

(** The nine [re.sub] rewrites, in order. *)
Definition fix_rules (layer_description layer_priority : text)
    (content : text) : result text :=
  let! content := fix_import_result content in
  let! content := fix_import_exceptions content in
  let! content := fix_getters layer_description layer_priority content in
  let! content := fix_canHandle content in
  let! content := fix_process content in
  let! content := fix_debugInfo content in
  let! content := fix_currentText content in
  let! content := fix_call content in
  fix_details content.

(** What [fix_layer_file] does to the text between reading and writing. *)
Definition fix_content (layer_description layer_priority : text)
    (content : text) : result text :=
  let! content := fix_rules layer_description layer_priority content in
  Ok (fix_create_result content).

(** *** The driver

    The world of the script: the files it can read, by path, each with its
    text as [open(..., 'r', encoding='utf-8')] and [read] give it, what
    goes wrong when a file is written, and what the script has done so
    far.  A path that is not in [files] stands for a file that cannot be
    opened or decoded.

    [open(file_path, 'w', encoding='utf-8')] followed by [f.write(content)]
    can fail in three ways.  The file cannot be opened for writing: [open]
    raises an [OSError] and the file stays as it is.  The text has a
    surrogate code point: [open] has emptied the file, [f.write] raises
    [UnicodeEncodeError] before a byte is stored, and the file stays empty.
    The device fails while the bytes are stored (a full disk, say): an
    [OSError], and the file holds what got through.  Which files cannot be
    opened or stored is not the script's doing: the world says so in
    [faults].  Printing is taken not to fail. *)

Inductive event :=
| Printed (msg : string)
| WasRead (path : string)
| Written (path : string) (data : text).

Inductive fault :=
| Denied                        (* [open(..., 'w')] raises *)
| Broken (kept : option text).  (* storing fails; [kept] is what a later
                                   read gives, if the file can be read *)

Record world := {
  files : gmap string text;
  faults : gmap string fault;
  trace : list event
}.

Definition emit (e : event) (w : world) : world :=
  {| files := files w; faults := faults w; trace := trace w ++ [e] |}.

(** The file at [path] now holds [data], or cannot be read any more. *)
Definition put (path : string) (data : option text) (w : world) : world :=
  {| files := match data with
              | Some d => <[path := d]> (files w)
              | None => delete path (files w)
              end;
     faults := faults w;
     trace := trace w |}.

(** UTF-8 has no encoding for the surrogates U+D800 .. U+DFFF. *)
Definition is_surrogate (c : char) : bool :=
  (55296 <=? c)%N && (c <=? 57343)%N.

Definition encodable (data : text) : bool :=
  forallb (fun c => negb (is_surrogate c)) data.

(** [with open(path, 'w', encoding='utf-8') as f: f.write(data)]. *)
Definition write_file (path : string) (data : text) (w : world)
  : result unit * world :=
  match faults w !! path with
  | Some Denied => (Err WriteError, w)
  | Some (Broken kept) =>
    if encodable data then (Err WriteError, put path kept w)
    else (Err EncodeError, put path (Some []) w)
  | None =>
    if encodable data
    then (Ok tt, emit (Written path data) (put path (Some data) w))
    else (Err EncodeError, put path (Some []) w)
  end.

(** [layer_name] is a parameter of the function that its body never uses. *)
Definition fix_layer_file (file_path : string)
    (layer_name layer_description layer_priority : text) (w : world)
  : result unit * world :=
  let w := emit (Printed ("Fixing " ++ file_path ++ "...")%string) w in
  match files w !! file_path with
  | None => (Err ReadError, w)
  | Some content =>
    let w := emit (WasRead file_path) w in
    match fix_content layer_description layer_priority content with
    | Err e => (Err e, w)
    | Ok content =>
      match write_file file_path content w with
      | (Err e, w) => (Err e, w)
      | (Ok _, w) => (Ok tt, emit (Printed ("Fixed " ++ file_path)%string) w)
      end
    end
  end.

Definition main (w : world) : result unit * world :=
  match
    fix_layer_file "lib/src/layers/post_processing_layer.dart"
      (str "PostProcessingLayer")
      (str "Post-processing layer: final text formatting, capitalization, punctuation, and quality assessment")
      (str "postProcessing") w
  with
  | (Err e, w) => (Err e, w)
  | (Ok _, w) =>
    match
      fix_layer_file "lib/src/layers/word_order_layer.dart"
        (str "WordOrderLayer")
        (str "Word order layer: reorders words according to target language syntax (SVO, SOV, VSO, etc.)")
        (str "wordOrder") w
    with
    | (Err e, w) => (Err e, w)
    | (Ok _, w) => (Ok tt, emit (Printed "All layers have been fixed!") w)
    end
  end.

(** * The vocabulary of the statements *)

(** [run p w]: the pattern [p] can consume exactly the text [w]. *)
Inductive run : pattern -> text -> Prop :=
| run_nil : run [] []
| run_lit c p w : run p w -> run (Lit c :: p) (c :: w)
| run_in k x p w : in_class k x = true -> run p w -> run (OneOf k :: p) (x :: w)
| run_mark i p w : run p w -> run (Mark i :: p) w
| run_repeat g lo k p u w :
    forallb (in_class k) u = true -> lo <= length u -> run p w ->
    run (Repeat g lo k :: p) (u ++ w).

(** [replaced P R s]: [s] with every occurrence of [P], found from left to
    right without overlap, replaced by [R]; [P] is not empty. *)
Definition replaced (P R s : text) : text := replace_scan P R s 0.

(** A pattern that is one literal text [P]: it matches exactly where [P]
    stands. *)
Definition literal_rule (r : regex) (P : text) : Prop :=
  exists mk0, forall s,
    match_at r s = if startswith P s then Some (length P, mk0) else None.

(** [u] and [v] differ at a position that both have. *)
Fixpoint clash (u v : text) : bool :=
  match u, v with
  | a :: u', b :: v' => negb (N.eqb a b) || clash u' v'
  | _, _ => false
  end.

(** No occurrence of [P] can begin inside [R], whatever follows [R]. *)
Definition closed_inside (R P : text) : bool :=
  forallb (fun k => clash (skipn k R) P) (seq 0 (length R)).

(** No proper suffix of [P] can run into [R]. *)
Definition suffix_free (P R : text) : bool :=
  forallb (fun j => clash (skipn j P) R) (seq 1 (length P - 1)).

(** A text none of whose non-empty suffixes can run into [R]. *)
Definition clear (R u : text) : Prop :=
  forall i, i < length u -> clash (skipn i u) R = true.

Definition clearb (R u : text) : bool :=
  forallb (fun i => clash (skipn i u) R) (seq 0 (length u)).

(** *** Edit scripts

    A rewrite seen as a list of pieces: text that is kept, and text that
    gives way to other text.  [source] is the text before the rewrite,
    [target] the text after it. *)
Inductive piece :=
| Keep (x : text)
| Swap (o n : text).

Fixpoint source (es : list piece) : text :=
  match es with
  | [] => []
  | Keep x :: es' => x ++ source es'
  | Swap o _ :: es' => o ++ source es'
  end.

Fixpoint target (es : list piece) : text :=
  match es with
  | [] => []
  | Keep x :: es' => x ++ target es'
  | Swap _ n :: es' => n ++ target es'
  end.

(** All the new texts of the script [es] are among [N]. *)
Definition swaps_in (N : list text) (es : list piece) : Prop :=
  Forall (fun e => match e with Keep _ => True | Swap _ n => In n N end) es.

(** Every match of [r] is rewritten by the template [t] as an edit script
    with new texts among [N]. *)
Definition editing (r : regex) (t : template) (N : list text) : Prop :=
  forall s n mk, match_at r s = Some (n, mk) ->
    exists es, firstn n s = source es /\ expand t s n mk = target es /\
      swaps_in N es.

(** A text that is clear of every text of [N]. *)
Definition all_clear (N : list text) (u : text) : Prop :=
  forall n, In n N -> clear n u.

(** Putting [n] into a text cannot bring about an occurrence of [Q]. *)
Definition safe (Q n : text) : bool :=
  closed_inside n Q && suffix_free Q n.

(** The literal parts of the pattern for [debugInfo.details] and of its
    replacement. *)
Definition details_head : text := str "debugInfo.details['".
Definition details_mid : text := str "'] = ".
Definition details_tail : text := str ";".
Definition new_details_head : text := str "// ".
Definition new_details_mid : text := str ": ".
Definition new_details_tail : text := str " (moved to additionalInfo)".

(** The texts that the literal patterns stand for. *)
Definition old_getters : text :=
  lines ["@override";
         "  String get name => layerName;";
         "";
         "  @override";
         "  int get priority => layerPriority;"].
Definition old_canHandle : text :=
  str "bool canHandle(TranslationContext context)".
Definition old_process : text :=
  str "Future<LayerResult> process(TranslationContext context)".
Definition old_currentText : text :=
  str "String currentText = context.translatedText ?? '';".

(** The literal parts of the pattern for [LayerDebugInfo]. *)
Definition debugInfo_head : text := str "final debugInfo = LayerDebugInfo(".
Definition debugInfo_name : text := str "layerName: name,".
Definition debugInfo_time : text := str "startTime: DateTime.now(),".
Definition debugInfo_close : text := str ");".

(** The literal parts of an old call of [_createResult] with the flag
    [false], and of the new call. *)
Definition old_call_head : text :=
  str "return _createResult(false, context, stopwatch, debugInfo, '".
Definition new_call_head : text :=
  str "return _createResult(text, false, stopwatch, startTime, '".
Definition call_tail : text := str "');".

(** An old call with the flag [false] and the message [m], and the new
    call with the same message. *)
Definition old_call (m : text) : text := old_call_head ++ m ++ call_tail.
Definition new_call_of (m : text) : text := new_call_head ++ m ++ call_tail.

Definition no_quote (m : text) : bool :=
  forallb (fun c => negb (N.eqb c QUOTE)) m.

(** The replacement templates of the two rules with group references, as
    [parse_template] reads them. *)
Definition call_template_items : template :=
  List.map TChar new_call_head ++ TGroup 1 :: List.map TChar call_tail.

Definition details_template_items : template :=
  List.map TChar new_details_head ++ TGroup 1
  :: List.map TChar new_details_mid ++ TGroup 2
  :: List.map TChar new_details_tail.

(** The literal parts of the block pattern. *)
Definition create_result_head : text := str "LayerResult _createResult(".
Definition create_result_open : text := str ") {".

(** None of the ten patterns of the script, the nine of the rules and the
    one of the block step, has a match in [t]. *)
Definition no_anchor (t : text) : Prop :=
  Forall (fun r => re_search r t = None)
    [re_import_result; re_import_exceptions; re_getters; re_canHandle;
     re_process; re_debugInfo; re_currentText; re_call; re_details;
     re_create_result].

(** A world with one file and nothing done yet. *)
Definition one_file (path : string) (data : text) : world :=
  {| files := {[ path := data ]}; faults := empty; trace := [] |}.

(** *** Example texts *)

(** A method without a block in its body. *)
Definition plain_method : text :=
  lines ["LayerResult _createResult(bool success) {";
         "    return null;";
         "  }"].

(** A method of the shape the script is written for: its body has a block
    of its own. *)
Definition nested_method : text :=
  lines ["LayerResult _createResult(bool success, String? error) {";
         "    if (success) {";
         "      return ok;";
         "    }";
         "    return failed;";
         "  }"].

(** A layer in the shape the script is written for. *)
Definition old_layer : text :=
  lines ["import '../models/translation_result.dart';";
         "import '../utils/exceptions.dart';";
         "";
         "class WordOrderLayer extends BaseTranslationLayer {";
         "  @override";
         "  String get name => layerName;";
         "";
         "  @override";
         "  int get priority => layerPriority;";
         "";
         "  @override";
         "  bool canHandle(TranslationContext context) {";
         "    return true;";
         "  }";
         "";
         "  @override";
         "  Future<LayerResult> process(TranslationContext context) async {";
         "    final debugInfo = LayerDebugInfo(";
         "      layerName: name,";
         "      startTime: DateTime.now(),";
         "    );";
         "    String currentText = context.translatedText ?? '';";
         "    debugInfo.details['words'] = currentText.length;";
         "    return _createResult(false, context, stopwatch, debugInfo, 'No text');";
         "  }";
         "";
         "  LayerResult _createResult(bool success, TranslationContext context) {";
         "    return null;";
         "  }";
         "}";
         ""].

(** *** The entities of [main] *)

Definition post_processing_path : string :=
  "lib/src/layers/post_processing_layer.dart".
Definition post_processing_description : text :=
  str "Post-processing layer: final text formatting, capitalization, punctuation, and quality assessment".
Definition post_processing_priority : text := str "postProcessing".

Definition word_order_path : string :=
  "lib/src/layers/word_order_layer.dart".
Definition word_order_description : text :=
  str "Word order layer: reorders words according to target language syntax (SVO, SOV, VSO, etc.)".
Definition word_order_priority : text := str "wordOrder".

(** The replacement template of the description rule is well formed. *)
Definition template_ok (d p : text) : Prop :=
  exists tpl, compile_template re_getters (description_getter d p) = Ok tpl.

(** *** The texts that the other rules look for *)

(** An import line as the import patterns see it: the two characters
    before [/models] or [/utils] are free. *)
Definition import_result_line (c1 c2 : char) : text :=
  str "import '" ++ c1 :: c2 :: str "/models/translation_result.dart';"
  ++ [NL].
Definition import_exceptions_line (c1 c2 : char) : text :=
  str "import '" ++ c1 :: c2 :: str "/utils/exceptions.dart';" ++ [NL].

(** The [LayerDebugInfo] statement with white space [u1], [u2], [u3]
    between its parts. *)
Definition old_debugInfo (u1 u2 u3 : text) : text :=
  debugInfo_head ++ u1 ++ debugInfo_name ++ u2 ++ debugInfo_time ++ u3
  ++ debugInfo_close.

(** An assignment to [debugInfo.details] with the key [k] and the value
    [v], and the comment that takes its place. *)
Definition old_details (k v : text) : text :=
  details_head ++ k ++ details_mid ++ v ++ details_tail.
Definition new_details_of (k v : text) : text :=
  new_details_head ++ k ++ new_details_mid ++ v ++ new_details_tail.

Definition no_semicolon (v : text) : bool :=
  forallb (fun c => negb (N.eqb c (chr ";"))) v.

(** A template whose own characters can be encoded. *)
Definition template_encodable (t : template) : bool :=
  forallb (fun i => match i with
                    | TChar c => negb (is_surrogate c)
                    | TGroup _ => true
                    end) t.

(** The fixed texts that the ten patterns begin with. *)
Definition anchor_words : list text :=
  [str "import '"; old_getters; old_canHandle; old_process; debugInfo_head;
   old_currentText; old_call_head; details_head; create_result_head].

(** * Properties *)

(** ** Texts *)

Section Texts.

Lemma startswith_app (w s : text) : startswith w (w ++ s) = true.
Proof.
  induction w as [|a w IH]; simpl; [reflexivity|].
  rewrite N.eqb_refl. exact IH.
Qed.

Lemma startswith_split (w s : text) :
  startswith w s = true -> s = w ++ skipn (length w) s.
Proof.
  revert s. induction w as [|a w IH]; intros s H; simpl in *; [reflexivity|].
  destruct s as [|b s]; [discriminate|].
  apply andb_prop in H as [Hab Hw]. apply N.eqb_eq in Hab. subst b.
  simpl. f_equal. apply IH, Hw.
Qed.

Lemma startswith_iff (w s : text) :
  startswith w s = true <-> exists r, s = w ++ r.
Proof.
  split.
  - intros H. eexists. apply startswith_split, H.
  - intros [r ->]. apply startswith_app.
Qed.

Lemma startswith_short (w x y : text) :
  startswith w (x ++ y) = true -> length w <= length x ->
  startswith w x = true.
Proof.
  revert x. induction w as [|a w IH]; intros [|b x] H Hl; simpl in *;
    try reflexivity; try lia.
  apply andb_prop in H as [-> H]. simpl. apply IH; [exact H | lia].
Qed.

Lemma startswith_long (w x y : text) :
  startswith w (x ++ y) = true -> length x <= length w ->
  startswith (skipn (length x) w) y = true.
Proof.
  revert x. induction w as [|a w IH]; intros [|b x] H Hl; simpl in *;
    try reflexivity; try exact H; try lia.
  apply andb_prop in H as [_ H]. apply IH; [exact H | lia].
Qed.

Lemma startswith_weaken (w x y : text) :
  startswith w x = true -> startswith w (x ++ y) = true.
Proof.
  intros H. apply startswith_iff in H as [r ->].
  rewrite <- app_assoc. apply startswith_app.
Qed.

Lemma startswith_nil_r (w : text) : w <> [] -> startswith w [] = false.
Proof. destruct w; [congruence | reflexivity]. Qed.

Lemma occursb_head (w s : text) :
  startswith w s = true -> occursb w s = true.
Proof. intros H. destruct s; simpl; rewrite H; reflexivity. Qed.

Lemma occursb_occurs (w s : text) : occursb w s = true <-> occurs w s.
Proof.
  split.
  - induction s as [|c s IH]; simpl; intros H.
    + rewrite orb_false_r in H. apply startswith_iff in H as [r Hr].
      exists [], r. exact Hr.
    + apply orb_prop in H as [H|H].
      * apply startswith_iff in H as [r Hr]. exists [], r. exact Hr.
      * destruct (IH H) as (a & b & ->). exists (c :: a), b. reflexivity.
  - intros (a & b & ->). induction a as [|c a IH]; simpl.
    + apply occursb_head, startswith_app.
    + rewrite IH. apply orb_true_r.
Qed.

Lemma occurs_dec_false (w s : text) : occursb w s = false -> ~ occurs w s.
Proof.
  intros H Ho. apply occursb_occurs in Ho. congruence.
Qed.

End Texts.

(** ** The matcher

    [run p w]: the pattern [p] can consume exactly the text [w].  The
    matcher is sound for it, and complete: where some way to match exists,
    the matcher finds a match (the first in its order of preference). *)

Section Loops.

Variable c : cclass.
Variable lo : nat.
Variable k : text -> nat -> option (nat * marks).

Lemma greedy_sound s n pos r :
  greedy c lo k s n pos = Some r ->
  exists u rest, s = u ++ rest /\ forallb (in_class c) u = true /\
    lo <= n + length u /\ k rest (pos + length u) = Some r.
Proof.
  revert n pos. induction s as [|x s IH]; intros n pos H; simpl in H.
  - destruct (lo <=? n) eqn:E; [|discriminate].
    apply Nat.leb_le in E. exists [], []. simpl.
    rewrite !Nat.add_0_r. auto.
  - assert (Hstop : (if lo <=? n then k (x :: s) pos else None) = Some r ->
      exists u rest, x :: s = u ++ rest /\ forallb (in_class c) u = true /\
        lo <= n + length u /\ k rest (pos + length u) = Some r).
    { intros H'. destruct (lo <=? n) eqn:E; [|discriminate].
      apply Nat.leb_le in E. exists [], (x :: s). simpl.
      rewrite !Nat.add_0_r. auto. }
    destruct (in_class c x) eqn:Hx; [|auto].
    destruct (greedy c lo k s (S n) (S pos)) as [r'|] eqn:Hg; [|auto].
    injection H as ->.
    destruct (IH _ _ Hg) as (u & rest & -> & Hu & Hlo & Hk).
    exists (x :: u), rest. simpl. rewrite Hx, Hu.
    replace (pos + S (length u)) with (S pos + length u) by lia.
    repeat split; auto. lia.
Qed.

Lemma greedy_complete u rest n pos :
  forallb (in_class c) u = true -> lo <= n + length u ->
  k rest (pos + length u) <> None ->
  greedy c lo k (u ++ rest) n pos <> None.
Proof.
  revert n pos. induction u as [|x u IH]; intros n pos Hu Hlo Hk; simpl in *.
  - rewrite Nat.add_0_r in *.
    assert (E : (lo <=? n) = true) by (apply Nat.leb_le; lia).
    destruct rest as [|y rest]; simpl; rewrite ?E; auto.
    destruct (in_class c y); rewrite ?E; auto.
    destruct (greedy c lo k rest (S n) (S pos)); [discriminate | auto].
  - apply andb_prop in Hu as [Hx Hu]. rewrite Hx.
    specialize (IH (S n) (S pos) Hu).
    replace (S pos + length u) with (pos + S (length u)) in IH by lia.
    destruct (greedy c lo k (u ++ rest) (S n) (S pos)); [discriminate|].
    exfalso. apply IH; [lia | exact Hk | reflexivity].
Qed.

(** A greedy repeat that meets a character outside its class, or the end
    of the text, hands over to the rest of the pattern right there. *)
Lemma greedy_max u rest n pos r :
  forallb (in_class c) u = true ->
  (match rest with [] => true | y :: _ => negb (in_class c y) end) = true ->
  lo <= n + length u ->
  k rest (pos + length u) = Some r ->
  greedy c lo k (u ++ rest) n pos = Some r.
Proof.
  revert n pos. induction u as [|x u IH]; intros n pos Hu Hy Hlo Hk;
    simpl in *.
  - rewrite Nat.add_0_r in *.
    assert (E : (lo <=? n) = true) by (apply Nat.leb_le; lia).
    destruct rest as [|y rest]; simpl; rewrite ?E; auto.
    apply negb_true_iff in Hy. rewrite Hy. exact Hk.
  - apply andb_prop in Hu as [Hx Hu]. rewrite Hx.
    rewrite (IH (S n) (S pos)); auto; [lia|].
    replace (S pos + length u) with (pos + S (length u)) by lia. exact Hk.
Qed.

Lemma lazy_sound s n pos r :
  lazy c lo k s n pos = Some r ->
  exists u rest, s = u ++ rest /\ forallb (in_class c) u = true /\
    lo <= n + length u /\ k rest (pos + length u) = Some r /\
    forall u1 u2, u = u1 ++ u2 -> u2 <> [] -> lo <= n + length u1 ->
      k (u2 ++ rest) (pos + length u1) = None.
Proof.
  revert n pos. induction s as [|x s IH]; intros n pos H; simpl in H.
  - destruct (lo <=? n) eqn:E; simpl in H.
    + destruct (k [] pos) as [r'|] eqn:Hk; [|discriminate].
      injection H as ->. apply Nat.leb_le in E.
      exists [], []. simpl. rewrite !Nat.add_0_r.
      repeat split; auto.
      intros u1 u2 Hu Hne. destruct u1; destruct u2; simpl in *; congruence.
    + discriminate.
  - destruct (if lo <=? n then k (x :: s) pos else None) as [r'|] eqn:Hk.
    + injection H as ->. destruct (lo <=? n) eqn:E; [|discriminate].
      apply Nat.leb_le in E.
      exists [], (x :: s). simpl. rewrite !Nat.add_0_r.
      repeat split; auto.
      intros u1 u2 Hu Hne. destruct u1; destruct u2; simpl in *; congruence.
    + destruct (in_class c x) eqn:Hx; [|discriminate].
      destruct (IH _ _ H) as (u & rest & -> & Hu & Hlo & Hr & Hmin).
      exists (x :: u), rest. simpl. rewrite Hx, Hu.
      replace (pos + S (length u)) with (S pos + length u) by lia.
      repeat split; auto; [lia|].
      intros u1 u2 Hsplit Hne Hlo1.
      destruct u1 as [|y u1]; simpl in *.
      * subst u2. simpl. rewrite Nat.add_0_r in *.
        assert (E : (lo <=? n) = true) by (apply Nat.leb_le; lia).
        rewrite E in Hk. exact Hk.
      * injection Hsplit as -> ->.
        replace (pos + S (length u1)) with (S pos + length u1) by lia.
        apply Hmin; auto. lia.
Qed.

Lemma lazy_complete u rest n pos :
  forallb (in_class c) u = true -> lo <= n + length u ->
  k rest (pos + length u) <> None ->
  lazy c lo k (u ++ rest) n pos <> None.
Proof.
  revert n pos. induction u as [|x u IH]; intros n pos Hu Hlo Hk; simpl in *.
  - rewrite Nat.add_0_r in *.
    assert (E : (lo <=? n) = true) by (apply Nat.leb_le; lia).
    destruct rest as [|y rest]; simpl; rewrite E;
      destruct (k _ pos); [discriminate | congruence | discriminate | congruence].
  - apply andb_prop in Hu as [Hx Hu].
    destruct (if lo <=? n then k (x :: u ++ rest) pos else None);
      [discriminate|].
    rewrite Hx. apply IH; auto; [lia|].
    replace (S pos + length u) with (pos + S (length u)) by lia. exact Hk.
Qed.

End Loops.

Section Matcher.

Lemma exec_lits (w : text) (p : pattern) (s : text) pos mk :
  exec (lits w ++ p) s pos mk =
  if startswith w s
  then exec p (skipn (length w) s) (pos + length w) mk
  else None.
Proof.
  revert s pos. induction w as [|a w IH]; intros s pos; simpl.
  - rewrite Nat.add_0_r. reflexivity.
  - destruct s as [|b s]; [reflexivity|].
    rewrite (N.eqb_sym a b). destruct (N.eqb b a); simpl; [|reflexivity].
    rewrite IH. replace (S pos + length w) with (pos + S (length w)) by lia.
    reflexivity.
Qed.

Lemma run_lits (w : text) (p : pattern) (v : text) :
  run p v -> run (lits w ++ p) (w ++ v).
Proof. intros H. induction w; simpl; [exact H | constructor; exact IHw]. Qed.

Lemma run_lits_inv (w : text) (p : pattern) (v : text) :
  run (lits w ++ p) v -> exists v', v = w ++ v' /\ run p v'.
Proof.
  revert v. induction w as [|a w IH]; intros v H; simpl in *.
  - exists v. auto.
  - inversion H; subst. destruct (IH _ H3) as (v' & -> & Hv').
    exists v'. auto.
Qed.

Lemma run_repeat_inv g lo k (p : pattern) (v : text) :
  run (Repeat g lo k :: p) v ->
  exists u w, v = u ++ w /\ forallb (in_class k) u = true /\
    lo <= length u /\ run p w.
Proof. inversion 1; subst. eauto 6. Qed.

Lemma run_nil_inv (v : text) : run [] v -> v = [].
Proof. inversion 1. reflexivity. Qed.

Lemma exec_sound (p : pattern) : forall s pos mk n mk',
  exec p s pos mk = Some (n, mk') ->
  exists w rest, s = w ++ rest /\ n = pos + length w /\ run p w.
Proof.
  induction p as [|o p IH]; intros s pos mk n mk' H; simpl in H.
  - injection H as -> ->. exists [], s. simpl.
    split; [reflexivity|]. split; [lia | constructor].
  - destruct o as [c|k|[|] lo k|i].
    + destruct s as [|x s]; [discriminate|].
      destruct (N.eqb x c) eqn:E; [|discriminate].
      apply N.eqb_eq in E. subst x.
      destruct (IH _ _ _ _ _ H) as (w & rest & -> & -> & Hr).
      exists (c :: w), rest. simpl.
      split; [reflexivity|]. split; [lia | constructor; exact Hr].
    + destruct s as [|x s]; [discriminate|].
      destruct (in_class k x) eqn:E; [|discriminate].
      destruct (IH _ _ _ _ _ H) as (w & rest & -> & -> & Hr).
      exists (x :: w), rest. simpl.
      split; [reflexivity|]. split; [lia | constructor; assumption].
    + apply greedy_sound in H as (u & rest & -> & Hu & Hlo & Hk).
      destruct (IH _ _ _ _ _ Hk) as (w & rest' & -> & -> & Hr).
      exists (u ++ w), rest'. rewrite length_app, <- app_assoc.
      split; [reflexivity|]. split; [lia | constructor; auto].
    + apply lazy_sound in H as (u & rest & -> & Hu & Hlo & Hk & _).
      destruct (IH _ _ _ _ _ Hk) as (w & rest' & -> & -> & Hr).
      exists (u ++ w), rest'. rewrite length_app, <- app_assoc.
      split; [reflexivity|]. split; [lia | constructor; auto].
    + destruct (IH _ _ _ _ _ H) as (w & rest & -> & -> & Hr).
      exists w, rest. split; [reflexivity|]. split; [lia | constructor; auto].
Qed.

Lemma exec_complete (p : pattern) (w : text) :
  run p w -> forall rest pos mk, exec p (w ++ rest) pos mk <> None.
Proof.
  induction 1 as [|c p w _ IH|k x p w Hx _ IH|i p w _ IH|g lo k p u w Hu Hlo _ IH];
    intros rest pos mk; simpl.
  - discriminate.
  - rewrite N.eqb_refl. apply IH.
  - rewrite Hx. apply IH.
  - apply IH.
  - rewrite <- app_assoc. destruct g.
    + apply greedy_complete; auto.
    + apply lazy_complete; auto.
Qed.

(** A match is no longer than the text, and it only depends on the text it
    consumed: a text that starts with the matched characters has a match at
    its head too (maybe a different one). *)
Lemma match_at_sound (r : regex) s n mk :
  match_at r s = Some (n, mk) ->
  n <= length s /\ s = firstn n s ++ skipn n s /\ run (ops r) (firstn n s).
Proof.
  intros H. apply exec_sound in H as (w & rest & -> & -> & Hr). simpl.
  rewrite length_app, firstn_app, Nat.sub_diag, firstn_all, skipn_app,
    Nat.sub_diag, skipn_all. simpl. rewrite app_nil_r.
  split; [lia|]. split; [reflexivity | exact Hr].
Qed.

Lemma match_at_complete (r : regex) (w rest : text) :
  run (ops r) w -> match_at r (w ++ rest) <> None.
Proof. intros H. apply exec_complete, H. Qed.

Lemma match_at_extend (r : regex) s n mk rest :
  match_at r s = Some (n, mk) -> match_at r (firstn n s ++ rest) <> None.
Proof.
  intros H. apply match_at_complete. apply match_at_sound in H. tauto.
Qed.

(** [re.search] returns the leftmost position with a match. *)
Lemma search_from_some (r : regex) s i j n mk :
  search_from r s i = Some (j, n, mk) ->
  exists k, j = i + k /\ k <= length s /\
    match_at r (skipn k s) = Some (n, mk) /\
    forall k', k' < k -> match_at r (skipn k' s) = None.
Proof.
  revert i. induction s as [|c s IH]; intros i H; simpl in H.
  - destruct (match_at r []) as [[n' mk']|] eqn:E; [|discriminate].
    injection H as <- <- <-. exists 0. simpl.
    split; [lia|]. split; [lia|]. split; [exact E | intros; lia].
  - destruct (match_at r (c :: s)) as [[n' mk']|] eqn:E.
    + injection H as <- <- <-. exists 0. simpl.
      split; [lia|]. split; [lia|]. split; [exact E | intros; lia].
    + destruct (IH _ H) as (k & -> & Hk & Hm & Hmin).
      exists (S k). simpl. split; [lia|]. split; [lia|].
      split; [exact Hm|]. intros [|k'] Hlt; simpl; [exact E|].
      apply Hmin. lia.
Qed.

Lemma search_from_none (r : regex) s i :
  search_from r s i = None <-> forall k, match_at r (skipn k s) = None.
Proof.
  revert i. induction s as [|c s IH]; intros i; simpl.
  - destruct (match_at r []) as [[n mk]|] eqn:E.
    + split; [discriminate|]. intros H. specialize (H 0). simpl in H.
      congruence.
    + split; [|reflexivity]. intros _ k. rewrite skipn_nil. exact E.
  - destruct (match_at r (c :: s)) as [[n mk]|] eqn:E.
    + split; [discriminate|]. intros H. specialize (H 0). simpl in H.
      congruence.
    + rewrite IH. split.
      * intros H [|k]; simpl; [exact E | apply H].
      * intros H k. apply (H (S k)).
Qed.

End Matcher.

(** ** [re.sub] and [str.replace] *)

Section Scans.

Lemma sub_scan_skip (r : regex) (t : template) (s : text) (n : nat) :
  n <= length s -> sub_scan r t s n = sub_scan r t (skipn n s) 0.
Proof.
  revert n. induction s as [|c s IH]; intros [|n] H; simpl in *;
    try reflexivity; [lia|].
  apply IH. lia.
Qed.

Lemma sub_scan_match (r : regex) (t : template) (s : text) n mk :
  match_at r s = Some (S n, mk) ->
  sub_scan r t s 0 = expand t s (S n) mk ++ sub_scan r t (skipn (S n) s) 0.
Proof.
  intros H. destruct (match_at_sound _ _ _ _ H) as (Hlen & _ & _).
  destruct s as [|c s]; simpl in *; [lia|].
  rewrite H. f_equal. apply sub_scan_skip. lia.
Qed.

Lemma sub_scan_nomatch (r : regex) (t : template) (c : char) (s : text) :
  match_at r (c :: s) = None ->
  sub_scan r t (c :: s) 0 = c :: sub_scan r t s 0.
Proof. intros H. simpl. rewrite H. reflexivity. Qed.

(** A pattern without a match anywhere in the text leaves it as it is. *)
Lemma sub_scan_none (r : regex) (t : template) (s : text) :
  (forall k, match_at r (skipn k s) = None) -> sub_scan r t s 0 = s.
Proof.
  induction s as [|c s IH]; intros H.
  - pose proof (H 0) as H0. simpl in *. rewrite H0. reflexivity.
  - rewrite sub_scan_nomatch by apply (H 0). f_equal.
    apply IH. intros k. apply (H (S k)).
Qed.

Lemma re_sub_none (r : regex) (repl : text) (t : template) (s : text) :
  compile_template r repl = Ok t ->
  re_search r s = None ->
  re_sub r repl s = Ok s.
Proof.
  intros Ht Hs. unfold re_sub. rewrite Ht. simpl. f_equal.
  apply sub_scan_none. unfold re_search in Hs.
  rewrite search_from_none in Hs. exact Hs.
Qed.

Lemma expand_literal (R : text) s n mk :
  expand (List.map TChar R) s n mk = R.
Proof. induction R as [|c R IH]; simpl; [reflexivity | f_equal; exact IH]. Qed.

Lemma replace_scan_skip (old new s : text) (n : nat) :
  n <= length s ->
  replace_scan old new s n = replace_scan old new (skipn n s) 0.
Proof.
  revert n. induction s as [|c s IH]; intros [|n] H; simpl in *;
    try reflexivity; try lia.
  apply IH. lia.
Qed.

End Scans.

(** *** Rewriting a literal

    [P] is the text to find, [R] what it gives way to.  The three facts
    about words that the proofs below need are decidable, and checked by
    evaluation for the literals of the script. *)

Section Literal.

Variables P R : text.
Hypothesis P_nonempty : P <> [].

Lemma clash_startswith (u v x : text) :
  clash u v = true -> startswith u (v ++ x) = false.
Proof.
  revert v. induction u as [|a u IH]; intros [|b v] H; simpl in *;
    try discriminate.
  destruct (N.eqb a b); simpl in *; [apply IH, H | reflexivity].
Qed.

Lemma clash_sym (u v : text) : clash u v = clash v u.
Proof.
  revert v. induction u as [|a u IH]; intros [|b v]; simpl; try reflexivity.
  rewrite (N.eqb_sym a b), IH. reflexivity.
Qed.

Lemma P_cons : exists a P', P = a :: P'.
Proof. destruct P as [|a P']; [congruence | eauto]. Qed.

Lemma replaced_nil : replaced P R [] = [].
Proof. reflexivity. Qed.

Lemma replaced_hit (s : text) : replaced P R (P ++ s) = R ++ replaced P R s.
Proof.
  unfold replaced. destruct P as [|a P'] eqn:E; [congruence|].
  rewrite <- E. replace (P ++ s) with (a :: P' ++ s) by (subst; reflexivity).
  cbn [replace_scan]. replace (a :: P' ++ s) with (P ++ s) by (subst; reflexivity).
  rewrite startswith_app. f_equal.
  rewrite replace_scan_skip by (subst; simpl; rewrite length_app; lia).
  f_equal. subst. simpl. rewrite Nat.sub_0_r, skipn_app, Nat.sub_diag.
  rewrite skipn_all. reflexivity.
Qed.

Lemma replaced_miss (c : char) (s : text) :
  startswith P (c :: s) = false -> replaced P R (c :: s) = c :: replaced P R s.
Proof. intros H. unfold replaced. cbn [replace_scan]. rewrite H. reflexivity. Qed.

(** The two cases of a scan step, for a proof by cases. *)
Lemma scan_cases (s : text) :
  s = [] \/ (exists s', s = P ++ s') \/
  (exists c s', s = c :: s' /\ startswith P s = false).
Proof.
  destruct s as [|c s]; [left; reflexivity | right].
  destruct (startswith P (c :: s)) eqn:E.
  - left. apply startswith_iff in E. exact E.
  - right. exists c, s. auto.
Qed.

(** A text without an occurrence of [P] is left as it is. *)
Lemma replaced_absent (s : text) :
  (forall k, startswith P (skipn k s) = false) -> replaced P R s = s.
Proof.
  induction s as [|c s IH]; intros H; [reflexivity|].
  rewrite replaced_miss by apply (H 0). f_equal.
  apply IH. intros k. apply (H (S k)).
Qed.

(** The text before the first occurrence is kept, the occurrence gives way
    to [R], and the scan goes on behind it. *)
Lemma replaced_first (a b : text) :
  (forall k, k < length a -> startswith P (skipn k (a ++ P ++ b)) = false) ->
  replaced P R (a ++ P ++ b) = a ++ R ++ replaced P R b.
Proof.
  induction a as [|c a IH]; intros H; simpl.
  - apply replaced_hit.
  - rewrite replaced_miss by (apply (H 0); simpl; lia). f_equal.
    apply IH. intros k Hk. apply (H (S k)). simpl. lia.
Qed.

(** Where [P] occurs, [R] occurs afterwards. *)
Lemma replaced_occurs (s : text) : occurs P s -> occurs R (replaced P R s).
Proof.
  intros (a & b & ->). induction a as [|c a IH]; simpl.
  - rewrite replaced_hit. exists [], (replaced P R b). reflexivity.
  - destruct (startswith P (c :: a ++ P ++ b)) eqn:E.
    + apply startswith_iff in E as [r Hr]. rewrite Hr, replaced_hit.
      exists [], (replaced P R r). reflexivity.
    + rewrite (replaced_miss _ _ E). destruct IH as (x & y & ->).
      exists (c :: x), y. reflexivity.
Qed.

Section NoOccurrence.

Hypothesis inside : closed_inside R P = true.
Hypothesis tails : suffix_free P R = true.

Lemma inside_at (k : nat) (x : text) :
  k < length R -> startswith P (skipn k R ++ x) = false.
Proof.
  intros Hk. unfold closed_inside in inside.
  rewrite forallb_forall in inside.
  assert (H : clash (skipn k R) P = true)
    by (apply inside, in_seq; lia).
  rewrite clash_sym in H. apply clash_startswith, H.
Qed.

Lemma clear_tail (a : char) (u : text) : clear R (a :: u) -> clear R u.
Proof. intros H i Hi. apply (H (S i)). simpl. lia. Qed.

Lemma clear_P (a : char) (P' : text) : P = a :: P' -> clear R P'.
Proof.
  intros E i Hi.
  unfold suffix_free in tails. rewrite forallb_forall in tails.
  change (skipn i P') with (skipn (S i) (a :: P')). rewrite <- E.
  apply tails, in_seq. rewrite E. simpl. lia.
Qed.

(** What a clear text sees at the head of the output, it sees in the
    input. *)
Lemma clear_prefix (u s : text) :
  clear R u -> startswith u (replaced P R s) = true -> startswith u s = true.
Proof.
  revert u. induction s as [s IH] using (induction_ltof1 _ (@length _)).
  unfold ltof in IH. intros u Hu H.
  destruct u as [|a u]; [reflexivity|].
  destruct (scan_cases s) as [->|[[s' ->]|(c & s' & -> & Hm)]].
  - rewrite replaced_nil in H. discriminate.
  - rewrite replaced_hit in H.
    assert (Hc : clash (a :: u) R = true) by (apply (Hu 0); simpl; lia).
    rewrite (clash_startswith _ _ _ Hc) in H. discriminate.
  - rewrite (replaced_miss _ _ Hm) in H.
    simpl in *. apply andb_prop in H as [Hac H]. rewrite Hac. simpl.
    apply IH; [simpl; lia | eapply clear_tail, Hu | exact H].
Qed.

Lemma no_occurrence_at (s : text) (k : nat) :
  startswith P (skipn k (replaced P R s)) = false.
Proof.
  revert k. induction s as [s IH] using (induction_ltof1 _ (@length _)).
  unfold ltof in IH. intros k.
  destruct (scan_cases s) as [->|[[s' ->]|(c & s' & -> & Hm)]].
  - rewrite replaced_nil, skipn_nil. apply startswith_nil_r, P_nonempty.
  - rewrite replaced_hit.
    destruct (Nat.lt_ge_cases k (length R)) as [Hk|Hk].
    + rewrite skipn_app.
      replace (k - length R) with 0 by lia. rewrite skipn_O.
      apply inside_at, Hk.
    + rewrite skipn_app, (skipn_all2 R) by lia. simpl.
      apply IH. rewrite length_app.
      destruct P; [congruence | simpl; lia].
  - rewrite (replaced_miss _ _ Hm). destruct k as [|k]; simpl.
    + destruct (startswith P (c :: replaced P R s')) eqn:E; [|reflexivity].
      destruct P_cons as (a & P' & EP).
      assert (E' : startswith (a :: P') (c :: replaced P R s') = true)
        by (rewrite <- EP; exact E).
      assert (Hm' : startswith (a :: P') (c :: s') = false)
        by (rewrite <- EP; exact Hm).
      simpl in E', Hm'. apply andb_prop in E' as [Hac E'].
      rewrite Hac in Hm'. simpl in Hm'.
      rewrite (clear_prefix _ _ (clear_P _ _ EP) E') in Hm'. discriminate.
    + apply IH. simpl. lia.
Qed.

(** After the rewrite no occurrence of [P] is left. *)
Lemma no_occurrence (s : text) : ~ occurs P (replaced P R s).
Proof.
  intros (a & b & E).
  pose proof (no_occurrence_at s (length a)) as H.
  rewrite E, skipn_app, Nat.sub_diag, skipn_all, skipn_O in H. simpl in H.
  rewrite startswith_app in H. discriminate.
Qed.

(** The rewrite is idempotent. *)
Lemma replaced_idem (s : text) : replaced P R (replaced P R s) = replaced P R s.
Proof. apply replaced_absent. intros k. apply no_occurrence_at. Qed.

End NoOccurrence.

Section NoCreation.

(** Rewriting [P] to [R] cannot bring about an occurrence of another text
    [Q], if [Q] cannot begin inside [R] and no proper suffix of [Q] can run
    into [R]. *)
Variable Q : text.
Hypothesis Q_nonempty : Q <> [].
Hypothesis Q_inside : closed_inside R Q = true.
Hypothesis Q_tails : suffix_free Q R = true.

Lemma no_creation_at (s : text) :
  (forall k, startswith Q (skipn k s) = false) ->
  forall k, startswith Q (skipn k (replaced P R s)) = false.
Proof.
  induction s as [s IH] using (induction_ltof1 _ (@length _)).
  unfold ltof in IH. intros H k.
  destruct (scan_cases s) as [->|[[s' ->]|(c & s' & -> & Hm)]].
  - rewrite replaced_nil, skipn_nil. apply startswith_nil_r, Q_nonempty.
  - rewrite replaced_hit.
    destruct (Nat.lt_ge_cases k (length R)) as [Hk|Hk].
    + rewrite skipn_app. replace (k - length R) with 0 by lia.
      rewrite skipn_O. unfold closed_inside in Q_inside.
      rewrite forallb_forall in Q_inside.
      assert (Hc : clash (skipn k R) Q = true)
        by (apply Q_inside, in_seq; lia).
      rewrite clash_sym in Hc. apply clash_startswith, Hc.
    + rewrite skipn_app, (skipn_all2 R) by lia. simpl.
      apply IH.
      * rewrite length_app. destruct P_cons as (a & P' & ->). simpl. lia.
      * intros j. specialize (H (length P + j)).
        rewrite skipn_app, (skipn_all2 P) in H by lia.
        replace (length P + j - length P) with j in H by lia. exact H.
  - rewrite (replaced_miss _ _ Hm). destruct k as [|k].
    + rewrite skipn_O.
      destruct (startswith Q (c :: replaced P R s')) eqn:E; [|reflexivity].
      pose proof (H 0) as H0. rewrite skipn_O in H0.
      destruct Q as [|a Q'] eqn:EQ; [congruence|].
      simpl in E, H0. apply andb_prop in E as [Hac E].
      rewrite Hac in H0. simpl in H0.
      assert (HQ : clear R Q').
      { intros i Hi. unfold suffix_free in Q_tails.
        rewrite forallb_forall in Q_tails.
        apply (Q_tails (S i)), in_seq. simpl. lia. }
      rewrite (clear_prefix _ _ HQ E) in H0. discriminate.
    + simpl. apply IH; [simpl; lia|]. intros j. apply (H (S j)).
Qed.

End NoCreation.

Section Unbordered.

Hypothesis unbordered : suffix_free P P = true.

(** Every occurrence of [P] is rewritten: occurrences cannot overlap, so
    the scan meets each of them. *)
Lemma replaced_each (a b : text) :
  replaced P R (a ++ P ++ b) = replaced P R a ++ R ++ replaced P R b.
Proof.
  induction a as [a IH] using (induction_ltof1 _ (@length _)).
  unfold ltof in IH.
  destruct (scan_cases a) as [->|[[a' ->]|(c & a' & -> & Hm)]].
  - simpl. apply replaced_hit.
  - rewrite <- app_assoc, !replaced_hit, IH, <- app_assoc; [reflexivity|].
    rewrite length_app. destruct P; [congruence | simpl; lia].
  - rewrite (replaced_miss _ _ Hm). simpl.
    destruct (startswith P (c :: a' ++ P ++ b)) eqn:E.
    + exfalso.
      change (c :: a' ++ P ++ b) with ((c :: a') ++ P ++ b) in E.
      destruct (Nat.le_gt_cases (length P) (length (c :: a'))) as [Hle|Hgt].
      * (* the occurrence at the head lies within [c :: a'] *)
        rewrite (startswith_short _ _ _ E Hle) in Hm. discriminate.
      * (* the occurrence at the head would overlap the one behind [a'] *)
        apply startswith_long in E; [|lia].
        unfold suffix_free in unbordered.
        rewrite forallb_forall in unbordered.
        assert (Hc : clash (skipn (length (c :: a')) P) P = true)
          by (apply unbordered, in_seq; simpl in *; lia).
        rewrite (clash_startswith _ _ _ Hc) in E. discriminate.
    + rewrite (replaced_miss _ _ E). f_equal. apply IH. simpl. lia.
Qed.

End Unbordered.

End Literal.

Lemma literal_plain (r : regex) (P : text) :
  ops r = lits P -> literal_rule r P.
Proof.
  intros E. exists []. intros s. unfold match_at.
  rewrite E, <- (app_nil_r (lits P)), exec_lits. reflexivity.
Qed.

Lemma literal_group (r : regex) (P : text) :
  ops r = Mark 0 :: lits P ++ [Mark 1] -> literal_rule r P.
Proof.
  intros E. exists [(1, length P); (0, 0)]. intros s. unfold match_at.
  rewrite E. cbn [exec]. rewrite exec_lits. reflexivity.
Qed.

Lemma sub_scan_literal (r : regex) (t : template) (P R : text) :
  P <> [] -> literal_rule r P ->
  (forall s n mk, expand t s n mk = R) ->
  forall s, sub_scan r t s 0 = replaced P R s.
Proof.
  intros HP [mk0 Hr] Ht s.
  induction s as [s IH] using (induction_ltof1 _ (@length _)).
  unfold ltof in IH.
  destruct (scan_cases P s) as [->|[[s' ->]|(c & s' & -> & Hm)]].
  - simpl. rewrite Hr, startswith_nil_r by exact HP. reflexivity.
  - destruct (P_cons P HP) as (a & P' & EP).
    assert (Hm : match_at r (P ++ s') = Some (S (length P'), mk0)).
    { rewrite Hr, startswith_app, EP. reflexivity. }
    rewrite (sub_scan_match _ _ _ _ _ Hm), Ht, replaced_hit by exact HP.
    f_equal. replace (S (length P')) with (length P) by (rewrite EP; reflexivity).
    rewrite skipn_app, skipn_all, Nat.sub_diag, skipn_O. simpl.
    apply IH. rewrite length_app, EP. simpl. lia.
  - rewrite sub_scan_nomatch by (rewrite Hr, Hm; reflexivity).
    rewrite (replaced_miss _ _ _ _ Hm). f_equal. apply IH. simpl. lia.
Qed.

Lemma re_sub_literal (r : regex) (P R : text) :
  P <> [] -> literal_rule r P -> has_backslash R = false ->
  forall s, re_sub r R s = Ok (replaced P R s).
Proof.
  intros HP Hr HR s. unfold re_sub, compile_template. rewrite HR. simpl.
  f_equal. apply sub_scan_literal; auto. intros. apply expand_literal.
Qed.

(** ** The rules of the script *)

Lemma re_getters_ops :
  ops re_getters = Mark 0 :: lits old_getters ++ [Mark 1].
Proof. reflexivity. Qed.

Lemma re_canHandle_ops : ops re_canHandle = lits old_canHandle.
Proof. reflexivity. Qed.

Lemma re_process_ops : ops re_process = lits old_process.
Proof. reflexivity. Qed.

Lemma re_currentText_ops : ops re_currentText = lits old_currentText.
Proof. reflexivity. Qed.

Lemma fix_canHandle_eq (s : text) :
  fix_canHandle s = Ok (replaced old_canHandle new_canHandle s).
Proof.
  apply re_sub_literal;
    [discriminate | apply literal_plain, re_canHandle_ops | reflexivity].
Qed.

Lemma fix_process_eq (s : text) :
  fix_process s = Ok (replaced old_process new_process s).
Proof.
  apply re_sub_literal;
    [discriminate | apply literal_plain, re_process_ops | reflexivity].
Qed.

Lemma fix_currentText_eq (s : text) :
  fix_currentText s = Ok (replaced old_currentText new_currentText s).
Proof.
  apply re_sub_literal;
    [discriminate | apply literal_plain, re_currentText_ops | reflexivity].
Qed.

Lemma occurs_at (w s : text) :
  occurs w s <-> exists k, startswith w (skipn k s) = true.
Proof.
  split.
  - intros (a & b & ->). exists (length a).
    rewrite skipn_app, skipn_all, Nat.sub_diag, skipn_O. simpl.
    apply startswith_app.
  - intros [k H]. apply startswith_split in H.
    exists (firstn k s), (skipn (length w) (skipn k s)).
    rewrite <- H. symmetry. apply firstn_skipn.
Qed.

Lemma not_occurs_at (w s : text) :
  ~ occurs w s <-> forall k, startswith w (skipn k s) = false.
Proof.
  rewrite occurs_at. split.
  - intros H k. destruct (startswith w (skipn k s)) eqn:E; [|reflexivity].
    exfalso. apply H. exists k. exact E.
  - intros H [k Hk]. rewrite H in Hk. discriminate.
Qed.

(** No pattern of the script matches the empty string. *)
Lemma script_match_not_empty (r : regex) (s : text) (n : nat) (mk : marks) :
  In r [re_import_result; re_import_exceptions; re_getters; re_canHandle;
        re_process; re_debugInfo; re_currentText; re_call; re_details;
        re_create_result] ->
  match_at r s = Some (n, mk) -> 0 < n.
Proof.
  intros Hr H. apply exec_sound in H as (w & rest & _ & -> & Hrun).
  destruct w as [|c w]; [exfalso | simpl; lia].
  simpl in Hr.
  repeat (destruct Hr as [<-|Hr];
          [remember (ops _) as p eqn:E in Hrun; vm_compute in E; subst p;
           repeat match goal with
                  | H : run (_ :: _) [] |- _ => inversion H; clear H; subst
                  end|]).
  exact Hr.
Qed.

(** ** The signature rules *)

(** The rule for [canHandle], on the text it is given, and the rule for
    [process] behind it. *)
Lemma canHandle_rule (t : text) :
  exists t1 t2,
    fix_canHandle t = Ok t1 /\ fix_process t1 = Ok t2 /\
    ~ occurs old_canHandle t1 /\ ~ occurs old_canHandle t2 /\
    forall a b, t = a ++ old_canHandle ++ b ->
      exists a' b', fix_canHandle a = Ok a' /\ fix_canHandle b = Ok b' /\
        t1 = a' ++ new_canHandle ++ b'.
Proof.
  exists (replaced old_canHandle new_canHandle t),
    (replaced old_process new_process
       (replaced old_canHandle new_canHandle t)).
  split; [apply fix_canHandle_eq|]. split; [apply fix_process_eq|].
  assert (H1 : ~ occurs old_canHandle (replaced old_canHandle new_canHandle t)).
  { apply no_occurrence; [discriminate | reflexivity | reflexivity]. }
  split; [exact H1|]. split.
  - apply not_occurs_at.
    apply no_creation_at;
      [discriminate | discriminate | reflexivity | reflexivity |].
    apply not_occurs_at, H1.
  - intros a b ->. eexists _, _.
    split; [apply fix_canHandle_eq|]. split; [apply fix_canHandle_eq|].
    apply replaced_each; [discriminate | reflexivity].
Qed.

(** ** The description rule *)

Lemma has_backslash_app (u v : text) :
  has_backslash (u ++ v) = has_backslash u || has_backslash v.
Proof. apply existsb_app. Qed.

Lemma description_getter_plain (d p : text) :
  has_backslash d = false -> has_backslash p = false ->
  has_backslash (description_getter d p) = false.
Proof.
  intros Hd Hp. unfold description_getter.
  rewrite !has_backslash_app, Hd, Hp. reflexivity.
Qed.

Lemma fix_getters_eq (d p s : text) :
  has_backslash d = false -> has_backslash p = false ->
  fix_getters d p s = Ok (replaced old_getters (description_getter d p) s).
Proof.
  intros Hd Hp. apply re_sub_literal.
  - discriminate.
  - apply literal_group, re_getters_ops.
  - apply description_getter_plain; assumption.
Qed.

(** Brings nested concatenations to the right-nested form, so that two
    texts with the same characters and the same variables compute to the
    same term. *)
Ltac flatten_app :=
  repeat (rewrite <- app_assoc || rewrite <- app_comm_cons).

Lemma occurs_trans (u v w : text) : occurs u v -> occurs v w -> occurs u w.
Proof.
  intros (a & b & ->) (a' & b' & ->). exists (a' ++ a), (b ++ b').
  rewrite <- !app_assoc. reflexivity.
Qed.

(** C7, as amended.  For a description and a priority label without a
    backslash, and a text that contains the pair of [name] and [priority]
    getters, the rule's output contains the new block of getters, with the
    description between single quotes and the priority label after
    [LayerPriority.], both as they were supplied, character for character:
    an apostrophe in the description is copied, not escaped.  The name of
    the layer is not part of the block, which keeps the identifier
    [layerName]. *)
Theorem getters_inserted (d p t : text) :
  has_backslash d = false -> has_backslash p = false ->
  occurs old_getters t ->
  exists out,
    fix_getters d p t = Ok out /\
    occurs (description_getter d p) out /\
    occurs (str "  String get name => layerName;") out /\
    occurs (str "  String get description => " ++ QUOTE :: d ++ QUOTE :: str ";") out /\
    occurs (str "  LayerPriority get priority => LayerPriority." ++ p ++ str ";") out.
Proof.
  intros Hd Hp Ht.
  exists (replaced old_getters (description_getter d p) t).
  split; [apply fix_getters_eq; assumption|].
  assert (H : occurs (description_getter d p)
                (replaced old_getters (description_getter d p) t))
    by (apply replaced_occurs; [discriminate | exact Ht]).
  split; [exact H|].
  split; [|split]; (eapply occurs_trans; [|exact H]); unfold description_getter.
  - exists (lines ["@override"; ""]).
    exists (lines [""; ""; "  @override"; "  String get description => '"]
            ++ d
            ++ lines ["';"; ""; "  @override";
                      "  LayerPriority get priority => LayerPriority."]
            ++ p ++ str ";").
    flatten_app. reflexivity.
  - exists (lines ["@override"; "  String get name => layerName;"; "";
                   "  @override"; ""]).
    exists (lines [""; ""; "  @override";
                   "  LayerPriority get priority => LayerPriority."]
            ++ p ++ str ";").
    flatten_app. reflexivity.
  - exists (lines ["@override"; "  String get name => layerName;"; "";
                   "  @override"; "  String get description => '"]
            ++ d ++ lines ["';"; ""; "  @override"; ""]).
    exists []. flatten_app. reflexivity.
Qed.

Lemma getters_inserted_witness :
  exists out,
    fix_getters (str "It's") (str "baz") old_getters = Ok out /\
    occurs (description_getter (str "It's") (str "baz")) out /\
    occurs (str "  String get name => layerName;") out /\
    occurs (str "  String get description => "
            ++ QUOTE :: str "It's" ++ QUOTE :: str ";") out /\
    occurs (str "  LayerPriority get priority => LayerPriority."
            ++ str "baz" ++ str ";") out.
Proof.
  apply (getters_inserted (str "It's") (str "baz") old_getters).
  - reflexivity.
  - reflexivity.
  - exists [], []. rewrite app_nil_r. reflexivity.
Defined.

(** C7, counterexample.  A description with a backslash is not inserted as
    it was supplied ([\t] becomes a tab) or is refused ([\d]); and the
    name of the layer is in no case part of what is written. *)
Lemma description_not_verbatim :
  (exists out,
     fix_getters (str "tab\there") (str "baz") old_getters = Ok out /\
     ~ occurs (str "tab\there") out) /\
  fix_getters (str "\d") (str "baz") old_getters = Err ReError /\
  (exists out,
     files (snd (fix_layer_file "layer.dart" (str "Foo") (str "Bar")
                   (str "baz") (one_file "layer.dart" old_getters)))
       !! "layer.dart" = Some out /\
     ~ occurs (str "Foo") out).
Proof.
  split; [|split].
  - eexists. split; [vm_compute; reflexivity|].
    apply occurs_dec_false. vm_compute. reflexivity.
  - vm_compute. reflexivity.
  - eexists. split; [vm_compute; reflexivity|].
    apply occurs_dec_false. vm_compute. reflexivity.
Qed.

(** C9.  A description with a backslash before a digit is not inserted as
    it is: [\2] names a group that the pattern does not have, and the rule
    fails with an error (also on a text without the getters); [\1] is
    replaced by the text that the pattern matched. *)
Theorem description_is_a_template :
  (exists d p t,
     occurs (str "\2") d /\ fix_getters d p t = Err ReError /\
     fix_content d p t = Err ReError) /\
  (exists d p t out,
     occurs (str "\1") d /\ occurs old_getters t /\
     fix_getters d p t = Ok out /\ ~ occurs d out /\
     occurs (str "'see " ++ old_getters ++ str "'") out).
Proof.
  split.
  - exists (str "see \2"), (str "baz"), [].
    split; [exists (str "see "), []; reflexivity|].
    split; vm_compute; reflexivity.
  - exists (str "see \1"), (str "baz"), old_getters. eexists.
    split; [exists (str "see "), []; reflexivity|].
    split; [exists [], []; reflexivity|].
    split; [vm_compute; reflexivity|].
    split.
    + apply occurs_dec_false. vm_compute. reflexivity.
    + apply occursb_occurs. vm_compute. reflexivity.
Qed.

(** ** The driver *)

(** C8.  A run of [fix_layer_file] that fails before the write, because
    the file could not be read or because a rule raised an error while the
    text was transformed in memory, leaves the files as they were, and has
    written nothing. *)
Theorem failure_leaves_files (file_path : string) (name d p : text)
    (w w' : world) (e : error) :
  fix_layer_file file_path name d p w = (Err e, w') ->
  files w !! file_path = None \/
  (exists content,
     files w !! file_path = Some content /\ fix_content d p content = Err e) ->
  files w' = files w /\
  exists evs, trace w' = trace w ++ evs /\
    forall q data, ~ In (Written q data) evs.
Proof.
  unfold fix_layer_file. cbn [emit files trace].
  intros H [Hr|(content & Hr & Ht)]; rewrite Hr in H.
  - injection H as <- <-. cbn. split; [reflexivity|].
    eexists. split; [reflexivity|].
    intros q data [H|[]]; discriminate.
  - rewrite Ht in H. injection H as <-. cbn. split; [reflexivity|].
    eexists. rewrite <- app_assoc. split; [reflexivity|].
    intros q data [H|[H|[]]]; discriminate.
Qed.

Lemma failure_leaves_files_witness :
  let w := one_file "other.dart" (str "class A {}") in
  exists w',
    fix_layer_file "layer.dart" (str "L") (str "d") (str "p") w
      = (Err ReadError, w') /\
    files w' = files w /\
    exists evs, trace w' = trace w ++ evs /\
      forall q data, ~ In (Written q data) evs.
Proof.
  intros w. eexists. split; [reflexivity|].
  apply (failure_leaves_files "layer.dart" (str "L") (str "d") (str "p")
           w _ ReadError).
  - reflexivity.
  - left. reflexivity.
Defined.

(** What a run does once the file is read and its text transformed: it
    writes, and its outcome is that of the write. *)
Lemma fix_layer_file_writes (file_path : string) (name d p : text)
    (w : world) (content out : text) :
  files w !! file_path = Some content ->
  fix_content d p content = Ok out ->
  fix_layer_file file_path name d p w =
  match
    write_file file_path out
      (emit (WasRead file_path)
         (emit (Printed ("Fixing " ++ file_path ++ "...")%string) w))
  with
  | (Err e, w') => (Err e, w')
  | (Ok _, w') => (Ok tt, emit (Printed ("Fixed " ++ file_path)%string) w')
  end.
Proof.
  intros Hr Ho. unfold fix_layer_file. cbn [emit files trace].
  rewrite Hr, Ho. reflexivity.
Qed.

(** C10.  A run that has read the file and transformed its text writes the
    text back, whatever it is: nothing compares it with what was read.  If
    the file can be written and the text encoded, the run succeeds and the
    write has taken place, also when the text comes out as it went in; a
    run that succeeds has written the text; and a run that fails has failed
    in the write. *)
Theorem write_back_unconditional (file_path : string) (name d p : text)
    (w : world) (content out : text) :
  files w !! file_path = Some content ->
  fix_content d p content = Ok out ->
  (faults w !! file_path = None -> encodable out = true ->
   exists w',
     fix_layer_file file_path name d p w = (Ok tt, w') /\
     files w' = <[file_path := out]> (files w) /\
     trace w' = trace w ++
       [Printed ("Fixing " ++ file_path ++ "...")%string;
        WasRead file_path;
        Written file_path out;
        Printed ("Fixed " ++ file_path)%string]) /\
  (forall w',
     fix_layer_file file_path name d p w = (Ok tt, w') ->
     files w' = <[file_path := out]> (files w) /\
     trace w' = trace w ++
       [Printed ("Fixing " ++ file_path ++ "...")%string;
        WasRead file_path;
        Written file_path out;
        Printed ("Fixed " ++ file_path)%string]) /\
  (forall e w',
     fix_layer_file file_path name d p w = (Err e, w') ->
     e = WriteError \/ e = EncodeError).
Proof.
  intros Hr Ht. rewrite (fix_layer_file_writes _ _ _ _ _ _ _ Hr Ht).
  unfold write_file. cbn [emit put files faults trace].
  destruct (faults w !! file_path) as [[|kept]|];
    destruct (encodable out).
  all: split; [intros Hf He; try discriminate|split].
  all: try (intros w' [= <-]; cbn; rewrite <- !app_assoc; split; reflexivity).
  all: try (intros w' H; discriminate).
  all: try (intros e w' [= <- <-]; auto).
  all: try (intros e w' H; discriminate).
  eexists. split; [reflexivity|]. cbn. rewrite <- !app_assoc.
  split; reflexivity.
Qed.

Lemma write_back_unconditional_witness :
  let w := one_file "layer.dart" (str "class A {}") in
  exists w',
    fix_layer_file "layer.dart" (str "L") (str "d") (str "p") w
      = (Ok tt, w') /\
    files w' = <["layer.dart" := str "class A {}"]> (files w) /\
    trace w' = trace w ++
      [Printed "Fixing layer.dart...";
       WasRead "layer.dart";
       Written "layer.dart" (str "class A {}");
       Printed "Fixed layer.dart"].
Proof.
  intros w.
  destruct (write_back_unconditional "layer.dart" (str "L") (str "d")
              (str "p") w (str "class A {}") (str "class A {}"))
    as (H & _).
  - reflexivity.
  - vm_compute. reflexivity.
  - apply H; reflexivity.
Defined.

(** ** Texts without the anchors *)

Lemma re_sub_unmatched (r : regex) (repl s : text) :
  (exists t, compile_template r repl = Ok t) ->
  re_search r s = None ->
  re_sub r repl s = Ok s.
Proof. intros [t Ht]. apply (re_sub_none _ _ _ _ Ht). Qed.

(** C4, as amended.  If the description and the priority label make a
    well-formed replacement template, a text in which none of the patterns
    has a match comes out of the whole transformation as it went in. *)
Theorem no_anchor_unchanged (d p t : text) :
  (exists tpl, compile_template re_getters (description_getter d p) = Ok tpl) ->
  no_anchor t ->
  fix_content d p t = Ok t.
Proof.
  intros Htpl H. unfold no_anchor in H.
  repeat match goal with
         | H : Forall _ (_ :: _) |- _ => inversion_clear H
         end.
  unfold fix_content, fix_rules.
  unfold fix_import_result, fix_import_exceptions, fix_getters, fix_canHandle,
    fix_process, fix_debugInfo, fix_currentText, fix_call, fix_details.
  repeat (rewrite re_sub_unmatched;
          [cbn [bind] | first [exact Htpl | eexists; vm_compute; reflexivity]
                      | assumption]).
  unfold fix_create_result.
  match goal with H : re_search re_create_result t = None |- _ => rewrite H end.
  reflexivity.
Qed.

Lemma no_anchor_unchanged_witness :
  fix_content
    (str "Post-processing layer: final text formatting, capitalization, punctuation, and quality assessment")
    (str "postProcessing")
    (lines ["class PostProcessingLayer {"; "}"; ""])
  = Ok (lines ["class PostProcessingLayer {"; "}"; ""]).
Proof.
  apply no_anchor_unchanged.
  - eexists. vm_compute. reflexivity.
  - repeat constructor.
Defined.

(** C4, counterexample.  The empty text has no match of any pattern, yet
    with the description [\d] the transformation does not return it: the
    replacement template is parsed before the text is searched, and [\d]
    is a bad escape. *)
Lemma no_anchor_but_error :
  no_anchor [] /\ fix_content (str "\d") (str "postProcessing") [] = Err ReError.
Proof. split; [repeat constructor | vm_compute; reflexivity]. Qed.

(** ** The rule for the calls of [_createResult] *)

Lemma re_call_ops :
  ops re_call =
  lits old_call_head
  ++ Mark 0 :: Repeat true 1 (CNot QUOTE) :: Mark 1 :: lits call_tail.
Proof. reflexivity. Qed.

Lemma call_template :
  compile_template re_call new_call =
  Ok (List.map TChar new_call_head ++ TGroup 1 :: List.map TChar call_tail).
Proof. reflexivity. Qed.

Lemma expand_app (t1 t2 : template) s n mk :
  expand (t1 ++ t2) s n mk = expand t1 s n mk ++ expand t2 s n mk.
Proof.
  induction t1 as [|[c|g] t1 IH]; simpl; [reflexivity| |];
    rewrite IH; [reflexivity | apply app_assoc].
Qed.

Lemma skipn_app_exact (u v : text) : skipn (length u) (u ++ v) = v.
Proof. rewrite skipn_app, skipn_all, Nat.sub_diag, skipn_O. reflexivity. Qed.

Lemma firstn_app_exact (u v : text) : firstn (length u) (u ++ v) = u.
Proof.
  rewrite firstn_app, firstn_all, Nat.sub_diag, firstn_O. apply app_nil_r.
Qed.

Lemma match_old_call (m b : text) :
  m <> [] -> no_quote m = true ->
  match_at re_call (old_call m ++ b) =
  Some (length (old_call m),
        [(1, length old_call_head + length m); (0, length old_call_head)]).
Proof.
  intros Hm Hq. unfold match_at, old_call.
  rewrite re_call_ops, exec_lits, <- !app_assoc, startswith_app,
    skipn_app_exact.
  cbn [exec].
  erewrite greedy_max; [reflexivity | exact Hq | reflexivity | |].
  - destruct m; [congruence | simpl; lia].
  - cbn [exec].
    rewrite <- (app_nil_r (lits call_tail)), exec_lits, startswith_app.
    cbn [exec]. rewrite !length_app, !Nat.add_0_l, Nat.add_assoc.
    reflexivity.
Qed.

Lemma expand_old_call (m b : text) n :
  expand (List.map TChar new_call_head ++ TGroup 1 :: List.map TChar call_tail)
    (old_call m ++ b) n
    [(1, length old_call_head + length m); (0, length old_call_head)]
  = new_call_of m.
Proof.
  rewrite expand_app, expand_literal. cbn [expand]. rewrite expand_literal.
  unfold new_call_of. do 2 f_equal.
  unfold group, slice, old_call. cbn [mark Nat.mul Nat.add Nat.eqb].
  rewrite <- !app_assoc, skipn_app_exact.
  replace (length old_call_head + length m - length old_call_head)
    with (length m) by lia.
  apply firstn_app_exact.
Qed.

(** The text before the first match is copied. *)
Lemma sub_scan_first (r : regex) (t : template) (a x : text) :
  (forall j, j < length a -> match_at r (skipn j (a ++ x)) = None) ->
  sub_scan r t (a ++ x) 0 = a ++ sub_scan r t x 0.
Proof.
  induction a as [|c a IH]; intros H; [reflexivity|].
  simpl app. rewrite sub_scan_nomatch by (apply (H 0); simpl; lia).
  f_equal. apply IH. intros j Hj. apply (H (S j)). simpl. lia.
Qed.

(** C3, as amended.  An old call with the flag [false] whose message is a
    single-quoted literal, not empty and without an apostrophe, standing
    behind a text in which no match of the rule begins, is rewritten to the
    new shape with the same message; the text before it is kept and the
    text behind it is rewritten in the same way. *)
Theorem old_call_rewritten (a m b : text) :
  m <> [] -> no_quote m = true ->
  (forall j, j < length a ->
     match_at re_call (skipn j (a ++ old_call m ++ b)) = None) ->
  exists b',
    fix_call b = Ok b' /\
    fix_call (a ++ old_call m ++ b) = Ok (a ++ new_call_of m ++ b').
Proof.
  intros Hm Hq Ha. unfold fix_call, re_sub. rewrite call_template.
  cbn [bind]. eexists. split; [reflexivity|]. f_equal.
  rewrite sub_scan_first by exact Ha. f_equal.
  pose proof (match_old_call m b Hm Hq) as Hmatch.
  assert (Hlen : exists n, length (old_call m) = S n).
  { unfold old_call. rewrite length_app. simpl. eauto. }
  destruct Hlen as [n Hn]. rewrite Hn in Hmatch.
  rewrite (sub_scan_match _ _ _ _ _ Hmatch), expand_old_call, <- Hn.
  rewrite skipn_app_exact. reflexivity.
Qed.

Lemma old_call_rewritten_witness :
  exists b',
    fix_call (str ";" ++ [NL]) = Ok b' /\
    fix_call (str "    " ++ old_call (str "no text") ++ str ";" ++ [NL])
    = Ok (str "    " ++ new_call_of (str "no text") ++ b').
Proof.
  apply (old_call_rewritten (str "    ") (str "no text") (str ";" ++ [NL])).
  - discriminate.
  - reflexivity.
  - intros j Hj. simpl in Hj.
    do 4 (destruct j as [|j]; [vm_compute; reflexivity|]). lia.
Defined.

(** C3, counterexample.  A call in the old shape with the flag [true], and
    a call with the flag [false] whose message is not a quoted literal, are
    not rewritten. *)
Lemma other_calls_not_rewritten :
  let success :=
    str "return _createResult(true, context, stopwatch, debugInfo, 'done');" in
  let computed :=
    str "return _createResult(false, context, stopwatch, debugInfo, e.toString());" in
  fix_call success = Ok success /\
  fix_content (str "d") (str "p") success = Ok success /\
  fix_call computed = Ok computed.
Proof. repeat split; vm_compute; reflexivity. Qed.

(** ** The block step *)

Lemma re_create_result_ops :
  ops re_create_result =
  lits create_result_head
  ++ Repeat true 0 CSpace :: Repeat false 0 (CAny true)
  :: Repeat true 0 CSpace
  :: lits create_result_open ++ [Repeat false 0 (CAny true); Lit (chr "}")].
Proof. reflexivity. Qed.

(** A match of a pattern that begins with a literal is not empty. *)
Lemma match_at_headed (r : regex) (L : text) (p : pattern) s n mk :
  ops r = lits L ++ p ->
  match_at r s = Some (n, mk) ->
  startswith L s = true /\ length L <= n.
Proof.
  intros E H. unfold match_at in H. rewrite E, exec_lits in H.
  destruct (startswith L s); [|discriminate]. split; [reflexivity|].
  apply exec_sound in H as (w & rest & _ & -> & _). lia.
Qed.

Lemma str_replace_replaced (s old new : text) :
  old <> [] -> str_replace s old new = replaced old new s.
Proof. destruct old; [congruence | reflexivity]. Qed.

(** C5, as amended.  [re.search] finds the leftmost match of the block
    pattern only; the text before it is kept and the match gives way to the
    new method.  But the replacement is [str.replace] with the matched
    text: behind the match, every further occurrence of that same text is
    replaced as well, while other text (a second method with another body,
    say) stays. *)
Theorem block_replaced_wherever_it_occurs (t : text) (i n : nat)
    (mk : marks) :
  re_search re_create_result t = Some (i, n, mk) ->
  let m := firstn n (skipn i t) in
  t = firstn i t ++ m ++ skipn (i + n) t /\
  fix_create_result t =
    firstn i t ++ new_create_result
    ++ str_replace (skipn (i + n) t) m new_create_result.
Proof.
  intros Hs m.
  unfold fix_create_result. rewrite Hs. cbn [group]. fold m.
  unfold re_search in Hs.
  apply search_from_some in Hs as (k & -> & Hk & Hm & Hmin). simpl in *.
  destruct (match_at_headed _ _ _ _ _ _ re_create_result_ops Hm) as [_ Hn].
  destruct (match_at_sound _ _ _ _ Hm) as (Hlen & Hsplit & _). fold m in Hsplit.
  assert (Hne : m <> []).
  { intros E. apply (f_equal (@length _)) in E. unfold m in E.
    rewrite length_firstn in E. simpl in *. lia. }
  assert (Ht : t = firstn k t ++ m ++ skipn (k + n) t).
  { rewrite <- (firstn_skipn k t) at 1. f_equal.
    rewrite Hsplit at 1. f_equal. rewrite skipn_skipn. f_equal. lia. }
  split; [exact Ht|].
  rewrite !str_replace_replaced by exact Hne.
  rewrite Ht at 1. apply replaced_first; [exact Hne|].
  rewrite length_firstn, <- Ht. intros j Hj.
  destruct (startswith m (skipn j t)) eqn:E; [|reflexivity].
  exfalso. apply startswith_iff in E as [r Hr].
  assert (Hnone : match_at re_create_result (skipn j t) = None)
    by (apply Hmin; lia).
  rewrite Hr in Hnone. revert Hnone.
  apply (match_at_extend _ _ _ _ r Hm).
Qed.

Lemma block_replaced_wherever_it_occurs_witness :
  let t := plain_method ++ NL :: plain_method in
  let m := firstn 62 (skipn 0 t) in
  t = firstn 0 t ++ m ++ skipn (0 + 62) t /\
  fix_create_result t =
    firstn 0 t ++ new_create_result
    ++ str_replace (skipn (0 + 62) t) m new_create_result.
Proof.
  apply (block_replaced_wherever_it_occurs
           (plain_method ++ NL :: plain_method) 0 62 []).
  vm_compute. reflexivity.
Defined.

(** C5, counterexample.  The pattern matches twice, at two methods with
    the same text; the second one does not stay as it is: both give way to
    the new method. *)
Lemma second_block_replaced_too :
  let t := plain_method ++ NL :: plain_method in
  re_search re_create_result t = Some (0, 62, []) /\
  re_search re_create_result (skipn 62 t) = Some (1, 62, []) /\
  fix_create_result t = new_create_result ++ NL :: new_create_result /\
  fix_create_result t <> new_create_result ++ NL :: plain_method.
Proof.
  cbv zeta. repeat split; try (vm_compute; reflexivity).
  intros E. apply (f_equal (@length _)) in E. vm_compute in E. discriminate.
Qed.

(** What the block pattern matches: the head of the method, any text up
    to a [) {], and from there the text up to the first closing brace.  No
    brace is counted: the matched text has no closing brace before its
    last character. *)
Lemma create_result_match_shape (s : text) (n : nat) (mk : marks) :
  match_at re_create_result s = Some (n, mk) ->
  exists params body,
    firstn n s =
      create_result_head ++ params ++ create_result_open
      ++ body ++ [chr "}"] /\
    ~ In (chr "}") body.
Proof.
  intros H. pose proof (match_at_sound _ _ _ _ H) as (_ & Hsplit & _).
  unfold match_at in H. rewrite re_create_result_ops, exec_lits in H.
  destruct (startswith create_result_head s) eqn:Eh; [|discriminate].
  apply startswith_split in Eh.
  cbn [exec] in H.
  apply greedy_sound in H as (u1 & r1 & E1 & _ & _ & H).
  apply lazy_sound in H as (u2 & r2 & -> & _ & _ & H & _).
  apply greedy_sound in H as (u3 & r3 & -> & _ & _ & H).
  rewrite exec_lits in H.
  destruct (startswith create_result_open r3) eqn:Eo; [|discriminate].
  apply startswith_split in Eo.
  cbn [exec] in H.
  apply lazy_sound in H as (u4 & r4 & E4 & _ & _ & H & Hmin).
  destruct r4 as [|x r4]; [discriminate|].
  destruct (N.eqb x (chr "}")) eqn:Ex; [|discriminate].
  apply N.eqb_eq in Ex. subst x. injection H as <- <-.
  exists (u1 ++ u2 ++ u3), u4. split.
  - rewrite Eh, E1, Eo, E4.
    assert (Hn : forall (A B C D E F : text) rest,
      firstn (S (0 + length A + length B + length C + length D + length E
                 + length F))
        (A ++ B ++ C ++ D ++ E ++ F ++ chr "}" :: rest)
      = A ++ (B ++ C ++ D) ++ E ++ F ++ [chr "}"]).
    { intros A B C D E F rest.
      replace (A ++ B ++ C ++ D ++ E ++ F ++ chr "}" :: rest)
        with ((A ++ (B ++ C ++ D) ++ E ++ F ++ [chr "}"]) ++ rest)
        by (rewrite <- !app_assoc; do 6 f_equal).
      rewrite <- firstn_app_exact with (v := rest). f_equal.
      rewrite !length_app. simpl. lia. }
    rewrite <- Hn with (rest := r4). f_equal; lia.
  - intros Hin. apply in_split in Hin as (v1 & v2 & ->).
    specialize (Hmin v1 (chr "}" :: v2) eq_refl).
    assert (Hlo : 0 <= 0 + length v1) by lia.
    specialize (Hmin ltac:(discriminate) Hlo).
    cbn in Hmin. discriminate.
Qed.

(** C1, at the failing input.  The pattern ends its match at the first
    closing brace, the one of the inner [if]; the new method is put in
    place of the method's head and the [if], and the rest of the old body
    and the old method's own closing brace are left behind it.  It is so
    for every text: a match of the block pattern has no closing brace
    before its last character, so it never reaches over a block in the
    body. *)
Theorem block_ends_at_first_brace :
  (re_search re_create_result nested_method
     = Some (0, length (lines ["LayerResult _createResult(bool success, String? error) {";
                               "    if (success) {";
                               "      return ok;";
                               "    }"]), []) /\
   fix_create_result nested_method =
     new_create_result ++ NL :: lines ["    return failed;"; "  }"]) /\
  (forall s n mk,
     match_at re_create_result s = Some (n, mk) ->
     exists params body,
       firstn n s =
         create_result_head ++ params ++ create_result_open
         ++ body ++ [chr "}"] /\
       ~ In (chr "}") body).
Proof.
  split; [split; vm_compute; reflexivity|].
  apply create_result_match_shape.
Qed.

(** ** Running the script twice *)

(** The three rules whose pattern and replacement are plain texts never
    match in their own output. *)
Lemma fix_canHandle_idem (t : text) :
  exists t', fix_canHandle t = Ok t' /\ fix_canHandle t' = Ok t'.
Proof.
  eexists. split; [apply fix_canHandle_eq|].
  rewrite fix_canHandle_eq. f_equal.
  apply replaced_idem; [discriminate | reflexivity | reflexivity].
Qed.

Lemma fix_process_idem (t : text) :
  exists t', fix_process t = Ok t' /\ fix_process t' = Ok t'.
Proof.
  eexists. split; [apply fix_process_eq|].
  rewrite fix_process_eq. f_equal.
  apply replaced_idem; [discriminate | reflexivity | reflexivity].
Qed.

Lemma fix_currentText_idem (t : text) :
  exists t', fix_currentText t = Ok t' /\ fix_currentText t' = Ok t'.
Proof.
  eexists. split; [apply fix_currentText_eq|].
  rewrite fix_currentText_eq. f_equal.
  apply replaced_idem; [discriminate | reflexivity | reflexivity].
Qed.

(** The block pattern matches the new method itself, wherever it stands,
    but only its first 462 characters, up to the brace of [?? {}]. *)
Lemma new_method_matched (rest : text) :
  match_at re_create_result (new_create_result ++ rest) = Some (462, []).
Proof. vm_compute. reflexivity. Qed.

Lemma new_method_found (t : text) :
  occurs new_create_result t ->
  exists i n mk, re_search re_create_result t = Some (i, n, mk).
Proof.
  intros (a & b & ->).
  destruct (re_search re_create_result (a ++ new_create_result ++ b))
    as [[[i n] mk]|] eqn:E; [eauto|].
  exfalso. unfold re_search in E. rewrite search_from_none in E.
  specialize (E (length a)).
  rewrite skipn_app_exact, new_method_matched in E. discriminate.
Qed.

(** Replacing [P] by a longer text does not shorten a text, replacing it
    by a shorter one does not lengthen it. *)
Lemma replaced_length (P R s : text) :
  P <> [] ->
  (length P <= length R -> length s <= length (replaced P R s)) /\
  (length R <= length P -> length (replaced P R s) <= length s).
Proof.
  intros HP. induction s as [s IH] using (induction_ltof1 _ (@length _)).
  unfold ltof in IH.
  assert (0 < length P) by (destruct P; [congruence | simpl; lia]).
  destruct (scan_cases P s) as [->|[(s' & ->)|(c & s' & -> & Hm)]].
  - split; intros _; reflexivity.
  - rewrite replaced_hit by exact HP. rewrite !length_app.
    destruct (IH s') as [H1 H2]; [rewrite length_app; lia|].
    split; intros Hl; [specialize (H1 Hl) | specialize (H2 Hl)]; lia.
  - rewrite replaced_miss by exact Hm. simpl.
    destruct (IH s') as [H1 H2]; [simpl; lia|].
    split; intros Hl; [specialize (H1 Hl) | specialize (H2 Hl)]; lia.
Qed.

(** Replacing a text that occurs by another one changes the text. *)
Lemma replaced_changes (P R s : text) :
  P <> [] -> P <> R -> occurs P s -> replaced P R s <> s.
Proof.
  intros HP HPR. induction s as [s IH] using (induction_ltof1 _ (@length _)).
  unfold ltof in IH. intros Ho Heq.
  assert (0 < length P) by (destruct P; [congruence | simpl; lia]).
  destruct (scan_cases P s) as [->|[(s' & ->)|(c & s' & -> & Hm)]].
  - destruct Ho as (a & b & E). apply (f_equal (@length _)) in E.
    rewrite !length_app in E. simpl in E. lia.
  - rewrite replaced_hit in Heq by exact HP.
    destruct (replaced_length P R s' HP) as [H1 H2].
    pose proof (f_equal (@length _) Heq) as Hl. rewrite !length_app in Hl.
    destruct (Nat.lt_trichotomy (length P) (length R)) as [Hlt|[He|Hgt]].
    + specialize (H1 ltac:(lia)). lia.
    + apply HPR. apply (f_equal (firstn (length R))) in Heq.
      rewrite firstn_app_exact, <- He, firstn_app_exact in Heq.
      congruence.
    + specialize (H2 ltac:(lia)). lia.
  - rewrite replaced_miss in Heq by exact Hm. injection Heq as Heq.
    apply (IH s'); [simpl; lia | | exact Heq].
    destruct Ho as ([|x a] & b & E).
    + exfalso. simpl in E. rewrite E, startswith_app in Hm. discriminate.
    + simpl in E. injection E as -> ->. exists a, b. reflexivity.
Qed.

(** Where the block step finds the pattern, it changes the text, and the
    new method is in what it returns. *)
Lemma block_found_changes (t : text) (i n : nat) (mk : marks) :
  re_search re_create_result t = Some (i, n, mk) ->
  occurs new_create_result (fix_create_result t) /\
  fix_create_result t <> t.
Proof.
  intros Hs. unfold fix_create_result. rewrite Hs. cbn [group].
  unfold re_search in Hs.
  apply search_from_some in Hs as (k & Hk & _ & Hm & _).
  simpl in Hk. subst i.
  destruct (match_at_headed _ _ _ _ _ _ re_create_result_ops Hm) as [_ Hn].
  destruct (match_at_sound _ _ _ _ Hm) as (Hlen & Hsplit & _).
  assert (Hne : firstn n (skipn k t) <> []).
  { intros E. apply (f_equal (@length _)) in E.
    rewrite length_firstn in E. simpl in *. lia. }
  assert (Hocc : occurs (firstn n (skipn k t)) t).
  { exists (firstn k t), (skipn n (skipn k t)).
    rewrite <- Hsplit. symmetry. apply firstn_skipn. }
  rewrite str_replace_replaced by exact Hne.
  split; [apply replaced_occurs; assumption|].
  apply replaced_changes; [exact Hne | | exact Hocc].
  intros E. pose proof (f_equal (@length _) E) as El.
  rewrite length_firstn in El. change (length new_create_result) with 780 in El.
  rewrite E in Hsplit. rewrite Hsplit, new_method_matched in Hm.
  injection Hm as Hn' _. lia.
Qed.

(** C2, at the failing input.  The script turns [old_layer] into a text in
    the new shape.  Run on that text, the nine rules leave it as it is, but
    the block pattern matches the new method again, and only its first 462
    of 780 characters, up to the brace of [?? {}]: the whole new method is
    put in place of that part, and the other 318 characters of the first
    copy stay behind it.  It is so for every text: the pattern matches the
    head of the new method wherever it stands, and where the block step has
    found the pattern, it finds it again in its own output and changes that
    output. *)
Theorem block_rematches_new_method :
  (exists t1 t2 i,
     fix_content word_order_description word_order_priority old_layer
       = Ok t1 /\
     fix_rules word_order_description word_order_priority t1 = Ok t1 /\
     re_search re_create_result t1 = Some (i, 462, []) /\
     t1 = firstn i t1 ++ new_create_result ++ skipn (i + 780) t1 /\
     fix_content word_order_description word_order_priority t1 = Ok t2 /\
     t2 = firstn i t1 ++ new_create_result
          ++ skipn 462 new_create_result ++ skipn (i + 780) t1) /\
  length new_create_result = 780 /\
  (forall rest,
     match_at re_create_result (new_create_result ++ rest)
     = Some (462, [])) /\
  (forall t i n mk,
     re_search re_create_result t = Some (i, n, mk) ->
     (exists i' n' mk',
        re_search re_create_result (fix_create_result t)
        = Some (i', n', mk')) /\
     fix_create_result (fix_create_result t) <> fix_create_result t).
Proof.
  split; [|split; [reflexivity|split; [apply new_method_matched|]]].
  - eexists _, _, _.
    split; [vm_compute; reflexivity|].
    split; [vm_compute; reflexivity|].
    split; [vm_compute; reflexivity|].
    split; [vm_compute; reflexivity|].
    split; vm_compute; reflexivity.
  - intros t i n mk Hs.
    destruct (block_found_changes _ _ _ _ Hs) as [Hocc _].
    destruct (new_method_found _ Hocc) as (i' & n' & mk' & Hs').
    split; [eauto|]. apply (block_found_changes _ _ _ _ Hs').
Qed.

(** *** A rule with a constant replacement

    The pattern [r] begins with the literal [L]; the replacement [R] has no
    group reference.  If no match can begin inside [R], and no text that
    the pattern matches has a proper suffix that can run into [R], then
    the rule never matches in its own output. *)

Section ConstantRule.

Variables (r : regex) (L : text) (p : pattern) (R : text) (t : template).
Hypothesis r_ops : ops r = lits L ++ p.
Hypothesis L_nonempty : L <> [].
Hypothesis t_const : forall s n mk, expand t s n mk = R.
Hypothesis R_closed : closed_inside R L = true.
Hypothesis tails_clear : forall a u, run (ops r) (a :: u) -> clear R u.

Lemma headed_none (s : text) : startswith L s = false -> match_at r s = None.
Proof.
  intros H. unfold match_at. rewrite r_ops, exec_lits, H. reflexivity.
Qed.

Lemma constant_nil : sub_scan r t [] 0 = [].
Proof.
  simpl. rewrite headed_none; [reflexivity|].
  apply startswith_nil_r, L_nonempty.
Qed.

Lemma constant_hit (s : text) n mk :
  match_at r s = Some (n, mk) ->
  1 <= n <= length s /\
  sub_scan r t s 0 = R ++ sub_scan r t (skipn n s) 0.
Proof.
  intros H. destruct (match_at_headed _ _ _ _ _ _ r_ops H) as [_ Hn].
  destruct (match_at_sound _ _ _ _ H) as (Hlen & _ & _).
  assert (0 < length L) by (destruct L; [congruence | simpl; lia]).
  split; [lia|]. destruct n as [|n]; [lia|].
  rewrite (sub_scan_match _ _ _ _ _ H), t_const. reflexivity.
Qed.

Lemma constant_prefix (u s : text) :
  clear R u -> startswith u (sub_scan r t s 0) = true ->
  startswith u s = true.
Proof.
  revert u. induction s as [s IH] using (induction_ltof1 _ (@length _)).
  unfold ltof in IH. intros u Hu H.
  destruct u as [|a u]; [reflexivity|].
  destruct (match_at r s) as [[n mk]|] eqn:Em.
  - destruct (constant_hit _ _ _ Em) as (_ & E). rewrite E in H.
    assert (Hc : clash (a :: u) R = true) by (apply (Hu 0); simpl; lia).
    rewrite (clash_startswith _ _ _ Hc) in H. discriminate.
  - destruct s as [|c s]; [rewrite constant_nil in H; discriminate|].
    rewrite (sub_scan_nomatch _ _ _ _ Em) in H.
    simpl in *. apply andb_prop in H as [Hac H]. rewrite Hac. simpl.
    apply IH; [simpl; lia | eapply clear_tail, Hu | exact H].
Qed.

Lemma constant_no_match (s : text) (k : nat) :
  match_at r (skipn k (sub_scan r t s 0)) = None.
Proof.
  revert k. induction s as [s IH] using (induction_ltof1 _ (@length _)).
  unfold ltof in IH. intros k.
  destruct (match_at r s) as [[n mk]|] eqn:Em.
  - destruct (constant_hit _ _ _ Em) as (Hn & E). rewrite E.
    destruct (Nat.lt_ge_cases k (length R)) as [Hk|Hk].
    + apply headed_none. rewrite skipn_app.
      replace (k - length R) with 0 by lia. rewrite skipn_O.
      unfold closed_inside in R_closed. rewrite forallb_forall in R_closed.
      assert (Hc : clash (skipn k R) L = true)
        by (apply R_closed, in_seq; lia).
      rewrite clash_sym in Hc. apply clash_startswith, Hc.
    + rewrite skipn_app, (skipn_all2 R) by lia. simpl.
      apply IH. rewrite length_skipn. lia.
  - destruct s as [|c s].
    + rewrite constant_nil, skipn_nil. exact Em.
    + rewrite (sub_scan_nomatch _ _ _ _ Em). destruct k as [|k].
      * rewrite skipn_O.
        destruct (match_at r (c :: sub_scan r t s 0)) as [[n mk]|] eqn:E;
          [|reflexivity].
        exfalso.
        destruct (match_at_headed _ _ _ _ _ _ r_ops E) as [_ Hn].
        destruct (match_at_sound _ _ _ _ E) as (Hlen & Hsplit & Hrun).
        assert (0 < length L) by (destruct L; [congruence | simpl; lia]).
        destruct n as [|n]; [lia|]. simpl in Hrun, Hsplit.
        assert (Hp : startswith (firstn n (sub_scan r t s 0)) s = true).
        { apply constant_prefix; [eapply tails_clear, Hrun|].
          apply startswith_iff. eexists. symmetry. apply firstn_skipn. }
        apply startswith_iff in Hp as [rest Hrest].
        assert (Hm : match_at r ((c :: firstn n (sub_scan r t s 0)) ++ rest)
                     <> None) by (apply match_at_complete, Hrun).
        simpl in Hm. rewrite <- Hrest in Hm. congruence.
      * simpl. apply IH. simpl. lia.
Qed.

(** Applying the rule to its own output changes nothing. *)
Lemma constant_idem (s : text) :
  sub_scan r t (sub_scan r t s 0) 0 = sub_scan r t s 0.
Proof. apply sub_scan_none. intros k. apply constant_no_match. Qed.

End ConstantRule.

Lemma clearb_clear (R u : text) : clearb R u = true -> clear R u.
Proof.
  unfold clearb. rewrite forallb_forall. intros H i Hi.
  apply H, in_seq. lia.
Qed.

Lemma clash_app_l (u y v : text) :
  clash u v = true -> clash (u ++ y) v = true.
Proof.
  revert v. induction u as [|a u IH]; intros [|b v] H; simpl in *;
    try discriminate.
  destruct (N.eqb a b); simpl in *; [apply IH, H | reflexivity].
Qed.

Lemma clear_app (R x y : text) : clear R x -> clear R y -> clear R (x ++ y).
Proof.
  intros Hx Hy i Hi. rewrite length_app in Hi. rewrite skipn_app.
  destruct (Nat.lt_ge_cases i (length x)) as [Hlt|Hge].
  - apply clash_app_l, Hx, Hlt.
  - rewrite skipn_all2 by lia. simpl. apply Hy. lia.
Qed.

(** A text of characters other than the first one of [R] is clear. *)
Lemma clear_other (r0 : char) (R' u : text) :
  forallb (fun c => negb (N.eqb c r0)) u = true -> clear (r0 :: R') u.
Proof.
  intros H i Hi.
  destruct (skipn i u) as [|c v] eqn:E.
  - apply (f_equal (@length _)) in E. rewrite length_skipn in E.
    simpl in E. lia.
  - rewrite forallb_forall in H.
    assert (Hc : In c u).
    { rewrite <- (firstn_skipn i u), E. apply in_or_app. right. left.
      reflexivity. }
    simpl. rewrite (H _ Hc). reflexivity.
Qed.

Lemma re_debugInfo_ops :
  ops re_debugInfo =
  lits debugInfo_head
  ++ Repeat true 0 CSpace :: lits debugInfo_name
  ++ Repeat true 0 CSpace :: lits debugInfo_time
  ++ Repeat true 0 CSpace :: lits debugInfo_close.
Proof. reflexivity. Qed.

Lemma spaces_clear (u : text) :
  forallb (in_class CSpace) u = true -> clear new_debugInfo u.
Proof.
  intros H. apply (clear_other (chr "f")).
  rewrite forallb_forall in *. intros c Hc. specialize (H c Hc).
  simpl in H. destruct (N.eqb c (chr "f")) eqn:E; [|reflexivity].
  apply N.eqb_eq in E. subst c. discriminate.
Qed.

Lemma debugInfo_tails_clear (a : char) (u : text) :
  run (ops re_debugInfo) (a :: u) -> clear new_debugInfo u.
Proof.
  rewrite re_debugInfo_ops. intros H.
  apply run_lits_inv in H as (v1 & E1 & H).
  apply run_repeat_inv in H as (u1 & v2 & -> & Hu1 & _ & H).
  apply run_lits_inv in H as (v3 & -> & H).
  apply run_repeat_inv in H as (u2 & v4 & -> & Hu2 & _ & H).
  apply run_lits_inv in H as (v5 & -> & H).
  apply run_repeat_inv in H as (u3 & v6 & -> & Hu3 & _ & H).
  rewrite <- (app_nil_r (lits debugInfo_close)) in H.
  apply run_lits_inv in H as (v7 & -> & H).
  apply run_nil_inv in H. subst v7.
  assert (E : u = skipn 1 debugInfo_head ++ u1 ++ debugInfo_name ++ u2
                   ++ debugInfo_time ++ u3 ++ debugInfo_close ++ []).
  { change debugInfo_head with (chr "f" :: skipn 1 debugInfo_head) in E1.
    injection E1 as _ E. exact E. }
  rewrite E.
  apply clear_app; [apply clearb_clear; reflexivity|].
  apply clear_app; [apply spaces_clear, Hu1|].
  apply clear_app; [apply clearb_clear; reflexivity|].
  apply clear_app; [apply spaces_clear, Hu2|].
  apply clear_app; [apply clearb_clear; reflexivity|].
  apply clear_app; [apply spaces_clear, Hu3|].
  apply clearb_clear. reflexivity.
Qed.

Lemma fix_debugInfo_idem (t : text) :
  exists t', fix_debugInfo t = Ok t' /\ fix_debugInfo t' = Ok t'.
Proof.
  unfold fix_debugInfo, re_sub.
  change (compile_template re_debugInfo new_debugInfo)
    with (Ok (List.map TChar new_debugInfo)).
  cbn [bind]. eexists. split; [reflexivity|]. f_equal.
  eapply (constant_idem re_debugInfo debugInfo_head _ new_debugInfo).
  - apply re_debugInfo_ops.
  - discriminate.
  - intros. apply expand_literal.
  - reflexivity.
  - apply debugInfo_tails_clear.
Qed.

(** The other rules can match in their own output: the rules that take
    out an import, the rule for the getters when the description holds the
    old getters, the rule for the calls and the rule for the details. *)
Lemma other_rules_not_idempotent :
  (exists t t1 t2,
     fix_import_result t = Ok t1 /\ fix_import_result t1 = Ok t2 /\
     t2 <> t1) /\
  (exists t t1 t2,
     fix_getters old_getters (str "wordOrder") t = Ok t1 /\
     fix_getters old_getters (str "wordOrder") t1 = Ok t2 /\ t2 <> t1) /\
  (exists t t1 t2,
     fix_call t = Ok t1 /\ fix_call t1 = Ok t2 /\ t2 <> t1) /\
  (exists t t1 t2,
     fix_details t = Ok t1 /\ fix_details t1 = Ok t2 /\ t2 <> t1).
Proof.
  assert (Hne : forall u v : text, length u <> length v -> u <> v)
    by (intros u v H ->; apply H; reflexivity).
  split; [|split; [|split]].
  - exists (str "import '../models/translation_result.dart'"
            ++ lines ["import '../models/translation_result.dart';"; ";"; ""]).
    eexists _, _. split; [vm_compute; reflexivity|].
    split; [vm_compute; reflexivity|]. apply Hne. vm_compute. lia.
  - exists old_getters.
    eexists _, _. split; [vm_compute; reflexivity|].
    split; [vm_compute; reflexivity|]. apply Hne. vm_compute. lia.
  - exists (old_call (old_call_head ++ str ");x")).
    eexists _, _. split; [vm_compute; reflexivity|].
    split; [vm_compute; reflexivity|]. apply Hne. vm_compute. lia.
  - exists (lines ["debugInfo.details['a'] = debugInfo.details['k'] = v;";
                   "foo;"]).
    eexists _, _. split; [vm_compute; reflexivity|].
    split; [vm_compute; reflexivity|]. apply Hne. vm_compute. lia.
Qed.

(** ** Rewrites that cannot bring back the old signature *)

Section Edits.

Variable Q : text.
Variable N : list text.
Hypothesis Q_nonempty : Q <> [].
Hypothesis N_safe : forallb (safe Q) N = true.

Lemma safe_inside (n : text) (k : nat) (x : text) :
  In n N -> k < length n -> startswith Q (skipn k n ++ x) = false.
Proof.
  intros Hn Hk. pose proof N_safe as Hs. rewrite forallb_forall in Hs.
  specialize (Hs n Hn). unfold safe in Hs.
  apply andb_prop in Hs as [Hin _].
  unfold closed_inside in Hin. rewrite forallb_forall in Hin.
  assert (Hc : clash (skipn k n) Q = true) by (apply Hin, in_seq; lia).
  rewrite clash_sym in Hc. apply clash_startswith, Hc.
Qed.

Lemma all_clear_tail (a : char) (u : text) :
  all_clear N (a :: u) -> all_clear N u.
Proof. intros H n Hn. eapply clear_tail, H, Hn. Qed.

Lemma all_clear_Q (a : char) (Q' : text) : Q = a :: Q' -> all_clear N Q'.
Proof.
  intros E n Hn i Hi. pose proof N_safe as Hs. rewrite forallb_forall in Hs.
  specialize (Hs n Hn). unfold safe in Hs.
  apply andb_prop in Hs as [_ Hs].
  unfold suffix_free in Hs. rewrite forallb_forall in Hs.
  change (skipn i Q') with (skipn (S i) (a :: Q')). rewrite <- E.
  apply Hs, in_seq. rewrite E. simpl. lia.
Qed.

Lemma kept_prefix (x S T : text) :
  (forall u, all_clear N u -> startswith u T = true -> startswith u S = true) ->
  forall u, all_clear N u -> startswith u (x ++ T) = true ->
    startswith u (x ++ S) = true.
Proof.
  intros HTS. induction x as [|c x IH]; intros u Hu H; [apply HTS; auto|].
  destruct u as [|a u]; [reflexivity|]. simpl in *.
  apply andb_prop in H as [-> H]. simpl.
  apply IH; [eapply all_clear_tail, Hu | exact H].
Qed.

Lemma edits_prefix (es : list piece) :
  swaps_in N es ->
  forall u, all_clear N u -> startswith u (target es) = true ->
    startswith u (source es) = true.
Proof.
  induction 1 as [|[x|o n] es He _ IH]; intros u Hu H; simpl in *.
  - exact H.
  - apply (kept_prefix x _ _ IH u Hu H).
  - destruct u as [|a u]; [reflexivity|].
    assert (Hc : clash (a :: u) n = true)
      by (apply (Hu n He 0); simpl; lia).
    rewrite (clash_startswith _ _ _ Hc) in H. discriminate.
Qed.

Lemma edits_no_creation (es : list piece) :
  swaps_in N es ->
  (forall k, startswith Q (skipn k (source es)) = false) ->
  forall k, startswith Q (skipn k (target es)) = false.
Proof.
  induction 1 as [|[x|o n] es He Hes IH]; intros H k; simpl in *.
  - rewrite skipn_nil. apply startswith_nil_r, Q_nonempty.
  - revert k H. induction x as [|c x IHx]; intros k H; [apply IH, H|].
    destruct k as [|k].
    + rewrite skipn_O.
      destruct (startswith Q ((c :: x) ++ target es)) eqn:E; [|reflexivity].
      pose proof (H 0) as H0. rewrite skipn_O in H0.
      destruct (P_cons Q Q_nonempty) as (a & Q' & EQ).
      rewrite EQ in E, H0.
      simpl in E, H0. apply andb_prop in E as [Hac E].
      rewrite Hac in H0. simpl in H0.
      rewrite (kept_prefix x _ _ (edits_prefix es Hes) Q'
                 (all_clear_Q _ _ EQ) E) in H0.
      discriminate.
    + simpl. apply IHx. intros j. apply (H (S j)).
  - destruct (Nat.lt_ge_cases k (length n)) as [Hk|Hk].
    + rewrite skipn_app. replace (k - length n) with 0 by lia.
      rewrite skipn_O. apply safe_inside; assumption.
    + rewrite skipn_app, (skipn_all2 n) by lia. simpl.
      apply IH. intros j. specialize (H (length o + j)).
      rewrite skipn_app, (skipn_all2 o) in H by lia.
      replace (length o + j - length o) with j in H by lia. exact H.
Qed.

End Edits.

Lemma source_app (es1 es2 : list piece) :
  source (es1 ++ es2) = source es1 ++ source es2.
Proof.
  induction es1 as [|[x|o n] es1 IH]; simpl; [reflexivity| |];
    rewrite IH, app_assoc; reflexivity.
Qed.

Lemma target_app (es1 es2 : list piece) :
  target (es1 ++ es2) = target es1 ++ target es2.
Proof.
  induction es1 as [|[x|o n] es1 IH]; simpl; [reflexivity| |];
    rewrite IH, app_assoc; reflexivity.
Qed.

(** [re.sub] with an editing rule is one edit script over the whole text. *)
Lemma sub_scan_edits (r : regex) (t : template) (N : list text) :
  editing r t N ->
  forall s, exists es,
    s = source es /\ sub_scan r t s 0 = target es /\ swaps_in N es.
Proof.
  intros Hed s. induction s as [s IH] using (induction_ltof1 _ (@length _)).
  unfold ltof in IH.
  destruct (match_at r s) as [[[|n] mk]|] eqn:Em.
  - destruct (Hed _ _ _ Em) as (es1 & Hs1 & Ht1 & Hok1).
    rewrite firstn_O in Hs1.
    destruct s as [|c s].
    + exists es1. simpl. rewrite Em, Ht1, app_nil_r. auto.
    + destruct (IH s) as (es2 & -> & Ht2 & Hok2); [simpl; lia|].
      exists (es1 ++ Keep [c] :: es2).
      rewrite source_app, target_app, <- Hs1. simpl.
      rewrite Em, Ht1, Ht2. repeat split.
      apply Forall_app. split; [exact Hok1 | constructor; [exact I | exact Hok2]].
  - destruct (Hed _ _ _ Em) as (es1 & Hs1 & Ht1 & Hok1).
    destruct (match_at_sound _ _ _ _ Em) as (Hlen & Hsplit & _).
    destruct (IH (skipn (S n) s)) as (es2 & Hs2 & Ht2 & Hok2).
    { rewrite length_skipn. lia. }
    exists (es1 ++ es2).
    rewrite source_app, target_app, <- Hs1, <- Hs2, <- Hsplit.
    rewrite (sub_scan_match _ _ _ _ _ Em), Ht1, Ht2. repeat split.
    apply Forall_app. split; assumption.
  - destruct s as [|c s].
    + exists []. simpl. rewrite Em. repeat split. constructor.
    + destruct (IH s) as (es2 & -> & Ht2 & Hok2); [simpl; lia|].
      exists (Keep [c] :: es2). simpl in *. rewrite Em, Ht2.
      repeat split. constructor; [exact I | exact Hok2].
Qed.

(** An editing rule whose new texts are safe for [Q] does not bring about
    an occurrence of [Q]. *)
Lemma sub_scan_keeps_absent (Q : text) (N : list text) (r : regex)
    (t : template) (s : text) :
  Q <> [] -> forallb (safe Q) N = true -> editing r t N ->
  ~ occurs Q s -> ~ occurs Q (sub_scan r t s 0).
Proof.
  intros HQ HN Hed Hs.
  destruct (sub_scan_edits r t N Hed s) as (es & E & -> & Hok).
  apply not_occurs_at. apply (edits_no_creation Q N HQ HN es Hok).
  apply not_occurs_at. rewrite <- E. exact Hs.
Qed.

Lemma editing_constant (r : regex) (R : text) :
  editing r (List.map TChar R) [R].
Proof.
  intros s n mk _. exists [Swap (firstn n s) R]. simpl.
  rewrite !app_nil_r, expand_literal. repeat split.
  constructor; [left; reflexivity | constructor].
Qed.

(** Replaces the length of a closed text by its value. *)
Ltac eval_length t :=
  let x := eval vm_compute in (length t) in
  change (length t) with x in *.

Lemma slice_at (pre b c : text) (i j : nat) :
  i = length pre -> j = i + length b -> slice (pre ++ b ++ c) i j = b.
Proof.
  intros -> ->. unfold slice. rewrite skipn_app_exact.
  replace (length pre + length b - length pre) with (length b) by lia.
  apply firstn_app_exact.
Qed.

Lemma firstn_at (w rest : text) (n : nat) :
  n = length w -> firstn n (w ++ rest) = w.
Proof. intros ->. apply firstn_app_exact. Qed.

Lemma editing_call : editing re_call call_template_items [new_call_head].
Proof.
  intros s n mk H.
  unfold match_at in H. rewrite re_call_ops, exec_lits in H.
  destruct (startswith old_call_head s) eqn:Eh; [|discriminate].
  apply startswith_split in Eh. cbn [exec] in H.
  apply greedy_sound in H as (u & rest & E1 & _ & _ & H).
  cbn [exec] in H. rewrite <- (app_nil_r (lits call_tail)), exec_lits in H.
  destruct (startswith call_tail rest) eqn:Et; [|discriminate].
  apply startswith_split in Et. cbn [exec] in H. injection H as <- <-.
  rewrite E1, Et in Eh. rewrite Eh.
  exists [Swap old_call_head new_call_head; Keep (u ++ call_tail)].
  cbn [source target]. rewrite !app_nil_r. split; [|split].
  - replace (old_call_head ++ u ++ call_tail
             ++ skipn (length call_tail) rest)
      with ((old_call_head ++ u ++ call_tail)
            ++ skipn (length call_tail) rest)
      by (rewrite <- !app_assoc; reflexivity).
    apply firstn_at. rewrite !length_app.
    eval_length old_call_head. eval_length call_tail. lia.
  - unfold call_template_items.
    rewrite expand_app, expand_literal. cbn [expand].
    rewrite expand_literal. do 2 f_equal.
    cbn [group mark Nat.mul Nat.add Nat.eqb].
    apply slice_at; eval_length old_call_head; lia.
  - constructor; [left; reflexivity|]. constructor; [exact I | constructor].
Qed.

Lemma re_details_ops :
  ops re_details =
  lits details_head
  ++ Mark 0 :: Repeat true 1 (CNot QUOTE) :: Mark 1 :: lits details_mid
  ++ Mark 2 :: Repeat true 1 (CNot (chr ";")) :: Mark 3 :: lits details_tail.
Proof. reflexivity. Qed.

Lemma editing_details :
  editing re_details details_template_items
    [new_details_head; new_details_mid; new_details_tail].
Proof.
  intros s n mk H.
  unfold match_at in H. rewrite re_details_ops, exec_lits in H.
  destruct (startswith details_head s) eqn:Eh; [|discriminate].
  apply startswith_split in Eh. cbn [exec] in H.
  apply greedy_sound in H as (u1 & r1 & E1 & _ & _ & H).
  cbn [exec] in H. rewrite exec_lits in H.
  destruct (startswith details_mid r1) eqn:Em; [|discriminate].
  apply startswith_split in Em. cbn [exec] in H.
  apply greedy_sound in H as (u2 & r2 & E2 & _ & _ & H).
  cbn [exec] in H. rewrite <- (app_nil_r (lits details_tail)), exec_lits in H.
  destruct (startswith details_tail r2) eqn:Et; [|discriminate].
  apply startswith_split in Et. cbn [exec] in H. injection H as <- <-.
  rewrite Et in E2. rewrite E2 in Em. rewrite Em in E1. rewrite E1 in Eh.
  rewrite Eh.
  exists [Swap details_head new_details_head; Keep u1;
          Swap details_mid new_details_mid; Keep u2;
          Swap details_tail new_details_tail].
  cbn [source target]. rewrite !app_nil_r. split; [|split].
  - replace (details_head ++ u1 ++ details_mid ++ u2 ++ details_tail
             ++ skipn (length details_tail) r2)
      with ((details_head ++ u1 ++ details_mid ++ u2 ++ details_tail)
            ++ skipn (length details_tail) r2)
      by (rewrite <- !app_assoc; reflexivity).
    apply firstn_at. rewrite !length_app.
    eval_length details_head. eval_length details_mid.
    eval_length details_tail. lia.
  - unfold details_template_items.
    rewrite expand_app, expand_literal. cbn [expand].
    rewrite expand_app, expand_literal. cbn [expand].
    rewrite expand_literal. f_equal.
    cbn [group mark Nat.mul Nat.add Nat.eqb].
    f_equal; [apply slice_at; eval_length details_head; lia|].
    do 2 f_equal.
    replace (details_head ++ u1 ++ details_mid ++ u2 ++ details_tail
             ++ skipn (length details_tail) r2)
      with ((details_head ++ u1 ++ details_mid) ++ u2 ++ details_tail
            ++ skipn (length details_tail) r2)
      by (rewrite <- !app_assoc; reflexivity).
    apply slice_at; [rewrite !length_app|];
      eval_length details_head; eval_length details_mid; lia.
  - constructor; [left; reflexivity|].
    constructor; [exact I|].
    constructor; [right; left; reflexivity|].
    constructor; [exact I|].
    constructor; [right; right; left; reflexivity | constructor].
Qed.

Lemma re_sub_template (r : regex) (repl : text) (t : template) (s : text) :
  compile_template r repl = Ok t -> re_sub r repl s = Ok (sub_scan r t s 0).
Proof. intros H. unfold re_sub. rewrite H. reflexivity. Qed.

Lemma fix_create_result_keeps_absent (Q s : text) :
  Q <> [] -> safe Q new_create_result = true ->
  ~ occurs Q s -> ~ occurs Q (fix_create_result s).
Proof.
  intros HQ Hsafe Hs. unfold fix_create_result.
  destruct (re_search re_create_result s) as [[[i n] mk]|] eqn:E; [|exact Hs].
  cbn [group].
  apply search_from_some in E as (k & Hk & _ & Hm & _).
  simpl in Hk. subst i.
  destruct (match_at_headed _ _ _ _ _ _ re_create_result_ops Hm) as [_ Hn].
  destruct (match_at_sound _ _ _ _ Hm) as (Hlen & _ & _).
  assert (Hne : firstn n (skipn k s) <> []).
  { intros E. apply (f_equal (@length _)) in E.
    rewrite length_firstn in E. simpl in *. lia. }
  simpl in Hm. rewrite str_replace_replaced by exact Hne.
  unfold safe in Hsafe. apply andb_prop in Hsafe as [Hin Htl].
  apply not_occurs_at. apply no_creation_at; auto.
  apply not_occurs_at, Hs.
Qed.

Lemma fix_process_scan (s : text) :
  fix_process s = Ok (sub_scan re_process (List.map TChar new_process) s 0).
Proof. apply re_sub_template. reflexivity. Qed.

Lemma fix_debugInfo_scan (s : text) :
  fix_debugInfo s =
  Ok (sub_scan re_debugInfo (List.map TChar new_debugInfo) s 0).
Proof. apply re_sub_template. reflexivity. Qed.

Lemma fix_currentText_scan (s : text) :
  fix_currentText s =
  Ok (sub_scan re_currentText (List.map TChar new_currentText) s 0).
Proof. apply re_sub_template. reflexivity. Qed.

Lemma fix_call_scan (s : text) :
  fix_call s = Ok (sub_scan re_call call_template_items s 0).
Proof. apply re_sub_template. reflexivity. Qed.

Lemma fix_details_scan (s : text) :
  fix_details s = Ok (sub_scan re_details details_template_items s 0).
Proof. apply re_sub_template. reflexivity. Qed.

(** After the whole transformation the old signature of [canHandle] occurs
    nowhere: the rule for it leaves none, and no later step can put one
    together. *)
Lemma fix_content_no_old_canHandle (d p t out : text) :
  fix_content d p t = Ok out -> ~ occurs old_canHandle out.
Proof.
  unfold fix_content, fix_rules.
  destruct (fix_import_result t) as [t1|]; [|discriminate]. cbn [bind].
  destruct (fix_import_exceptions t1) as [t2|]; [|discriminate]. cbn [bind].
  destruct (fix_getters d p t2) as [t3|]; [|discriminate]. cbn [bind].
  rewrite fix_canHandle_eq. cbn [bind].
  rewrite fix_process_scan. cbn [bind].
  rewrite fix_debugInfo_scan. cbn [bind].
  rewrite fix_currentText_scan. cbn [bind].
  rewrite fix_call_scan. cbn [bind].
  rewrite fix_details_scan. cbn [bind].
  intros [= <-].
  apply fix_create_result_keeps_absent; [discriminate | reflexivity|].
  apply (sub_scan_keeps_absent old_canHandle
           [new_details_head; new_details_mid; new_details_tail]
           re_details details_template_items);
    [discriminate | reflexivity | apply editing_details|].
  apply (sub_scan_keeps_absent old_canHandle [new_call_head]
           re_call call_template_items);
    [discriminate | reflexivity | apply editing_call|].
  apply (sub_scan_keeps_absent old_canHandle [new_currentText]
           re_currentText (List.map TChar new_currentText));
    [discriminate | reflexivity | apply editing_constant|].
  apply (sub_scan_keeps_absent old_canHandle [new_debugInfo]
           re_debugInfo (List.map TChar new_debugInfo));
    [discriminate | reflexivity | apply editing_constant|].
  apply (sub_scan_keeps_absent old_canHandle [new_process]
           re_process (List.map TChar new_process));
    [discriminate | reflexivity | apply editing_constant|].
  apply no_occurrence; [discriminate | reflexivity | reflexivity].
Qed.

(** C6.  After the rule for [canHandle], and still after the rule for
    [process] that follows it, the old signature
    [bool canHandle(TranslationContext context)] occurs nowhere in the
    text; every occurrence of it in the text that the rule is given is
    rewritten to the new signature, the text around an occurrence being
    rewritten on its own, left and right of the new signature; and the old
    signature occurs nowhere in what the whole transformation returns. *)
Theorem canHandle_signature_rewritten (t : text) :
  (exists t1 t2,
     fix_canHandle t = Ok t1 /\ fix_process t1 = Ok t2 /\
     ~ occurs old_canHandle t1 /\ ~ occurs old_canHandle t2 /\
     forall a b, t = a ++ old_canHandle ++ b ->
       exists a' b', fix_canHandle a = Ok a' /\ fix_canHandle b = Ok b' /\
         t1 = a' ++ new_canHandle ++ b') /\
  (forall d p out, fix_content d p t = Ok out -> ~ occurs old_canHandle out).
Proof.
  split; [apply canHandle_rule|].
  intros d p out. apply fix_content_no_old_canHandle.
Qed.

Lemma canHandle_signature_rewritten_witness :
  exists t1 out,
    fix_canHandle (str "  " ++ old_canHandle ++ str " {") = Ok t1 /\
    t1 = str "  " ++ new_canHandle ++ str " {" /\
    fix_content (str "d") (str "p") (str "  " ++ old_canHandle ++ str " {")
      = Ok out /\
    ~ occurs old_canHandle out.
Proof.
  destruct (canHandle_signature_rewritten
              (str "  " ++ old_canHandle ++ str " {"))
    as ((t1 & t2 & H1 & _ & _ & _ & H5) & H6).
  exists t1. eexists. split; [exact H1|].
  destruct (H5 (str "  ") (str " {") eq_refl) as (a' & b' & Ha & Hb & ->).
  vm_compute in Ha, Hb. injection Ha as <-. injection Hb as <-.
  split; [reflexivity|].
  assert (E : fix_content (str "d") (str "p")
                (str "  " ++ old_canHandle ++ str " {")
              = Ok (str "  " ++ new_canHandle ++ str " {"))
    by (vm_compute; reflexivity).
  split; [exact E|]. apply (H6 _ _ _ E).
Defined.

(** * Further properties of the script *)

(** ** When the transformation fails *)

Lemma re_sub_error (r : regex) (repl : text) (e : error) (s : text) :
  compile_template r repl = Err e -> re_sub r repl s = Err e.
Proof. intros H. unfold re_sub. rewrite H. reflexivity. Qed.

Lemma fix_import_result_scan (s : text) :
  fix_import_result s = Ok (sub_scan re_import_result [] s 0).
Proof. apply re_sub_template. reflexivity. Qed.

Lemma fix_import_exceptions_scan (s : text) :
  fix_import_exceptions s = Ok (sub_scan re_import_exceptions [] s 0).
Proof. apply re_sub_template. reflexivity. Qed.

Lemma fix_content_ok (d p t : text) :
  template_ok d p -> exists out, fix_content d p t = Ok out.
Proof.
  intros [tpl Ht]. unfold fix_content, fix_rules.
  rewrite fix_import_result_scan. cbn [bind].
  rewrite fix_import_exceptions_scan. cbn [bind].
  unfold fix_getters. rewrite (re_sub_template _ _ _ _ Ht). cbn [bind].
  rewrite fix_canHandle_eq. cbn [bind].
  rewrite fix_process_scan. cbn [bind].
  rewrite fix_debugInfo_scan. cbn [bind].
  rewrite fix_currentText_scan. cbn [bind].
  rewrite fix_call_scan. cbn [bind].
  rewrite fix_details_scan. cbn [bind]. eexists. reflexivity.
Qed.

Lemma fix_content_error (d p t : text) (e : error) :
  compile_template re_getters (description_getter d p) = Err e ->
  fix_content d p t = Err e.
Proof.
  intros Ht. unfold fix_content, fix_rules.
  rewrite fix_import_result_scan. cbn [bind].
  rewrite fix_import_exceptions_scan. cbn [bind].
  unfold fix_getters. rewrite (re_sub_error _ _ _ _ Ht). reflexivity.
Qed.


(** X1.  Whether the transformation raises an error is decided by the
    description and the priority label alone: either their template is well
    formed and the transformation returns a text for every input, or it is
    not and the transformation fails with the same error for every input,
    also for one that no pattern matches. *)
Theorem fix_content_fails_by_template (d p : text) :
  (template_ok d p /\ forall t, exists out, fix_content d p t = Ok out) \/
  (exists e,
     compile_template re_getters (description_getter d p) = Err e /\
     forall t, fix_content d p t = Err e).
Proof.
  destruct (compile_template re_getters (description_getter d p))
    as [tpl|e] eqn:E.
  - left. assert (H : template_ok d p) by (exists tpl; exact E).
    split; [exact H|]. intros t. apply fix_content_ok, H.
  - right. exists e. split; [reflexivity|].
    intros t. apply fix_content_error, E.
Qed.

Lemma plain_template_ok (d p : text) :
  has_backslash d = false -> has_backslash p = false -> template_ok d p.
Proof.
  intros Hd Hp. unfold template_ok, compile_template.
  rewrite description_getter_plain by assumption. eauto.
Qed.

(** X2.  A description and a priority label without a backslash never make
    the transformation fail, whatever the text. *)
Theorem plain_parameters_never_fail (d p t : text) :
  has_backslash d = false -> has_backslash p = false ->
  exists out, fix_content d p t = Ok out.
Proof. intros Hd Hp. apply fix_content_ok, plain_template_ok; assumption. Qed.

Lemma plain_parameters_never_fail_witness :
  exists out,
    fix_content (str "It's a layer") (str "wordOrder") old_layer = Ok out.
Proof.
  apply (plain_parameters_never_fail (str "It's a layer") (str "wordOrder")
           old_layer); reflexivity.
Defined.

(** ** Texts that can be written *)

Lemma encodable_app (u v : text) :
  encodable (u ++ v) = encodable u && encodable v.
Proof. apply forallb_app. Qed.

Lemma encodable_firstn (n : nat) (s : text) :
  encodable s = true -> encodable (firstn n s) = true.
Proof.
  intros H. rewrite <- (firstn_skipn n s), encodable_app in H.
  apply andb_true_iff in H. tauto.
Qed.

Lemma encodable_skipn (n : nat) (s : text) :
  encodable s = true -> encodable (skipn n s) = true.
Proof.
  intros H. rewrite <- (firstn_skipn n s), encodable_app in H.
  apply andb_true_iff in H. tauto.
Qed.

Lemma encodable_group (s : text) (n : nat) (mk : marks) (g : nat) :
  encodable s = true -> encodable (group s n mk g) = true.
Proof.
  intros H. destruct g as [|g]; cbn [group].
  - apply encodable_firstn, H.
  - destruct (mark (2 * g) mk); [|reflexivity].
    destruct (mark (2 * g + 1) mk); [|reflexivity].
    apply encodable_firstn, encodable_skipn, H.
Qed.

Lemma encodable_expand (t : template) (s : text) (n : nat) (mk : marks) :
  template_encodable t = true -> encodable s = true ->
  encodable (expand t s n mk) = true.
Proof.
  intros Ht Hs. induction t as [|[c|g] t IH]; cbn in *.
  - reflexivity.
  - apply andb_true_iff in Ht as [Hc Ht]. rewrite Hc. apply IH, Ht.
  - rewrite encodable_app, encodable_group by exact Hs. apply IH, Ht.
Qed.

(** What [re.sub] returns is made of characters of the text and of the
    template. *)
Lemma encodable_sub_scan (r : regex) (t : template) (s : text) :
  template_encodable t = true -> encodable s = true ->
  forall k, encodable (sub_scan r t s k) = true.
Proof.
  intros Ht. induction s as [|c s IH]; intros Hs k.
  - destruct k; cbn [sub_scan]; [|reflexivity].
    destruct (match_at r []) as [[[|n] mk]|]; rewrite ?app_nil_r;
      try reflexivity; apply encodable_expand; assumption.
  - pose proof Hs as Hcs. cbn in Hcs. apply andb_true_iff in Hcs as [Hc Hs'].
    destruct k; cbn [sub_scan]; [|apply IH, Hs'].
    destruct (match_at r (c :: s)) as [[[|n] mk]|].
    + rewrite encodable_app, encodable_expand by assumption.
      cbn. rewrite Hc. apply IH, Hs'.
    + rewrite encodable_app, encodable_expand by assumption.
      apply IH, Hs'.
    + cbn. rewrite Hc. apply IH, Hs'.
Qed.

Lemma small_encodable (c : char) :
  (c <= 255)%N -> negb (is_surrogate c) = true.
Proof.
  intros H. unfold is_surrogate. apply negb_true_iff, andb_false_iff. left.
  apply N.leb_gt. lia.
Qed.

Lemma escape_small (d x : char) : escape d = Some x -> (x <= 255)%N.
Proof.
  unfold escape, BACKSLASH.
  repeat match goal with
         | |- context [if ?b then _ else _] => destruct b
         end; intros [= <-]; lia.
Qed.

Lemma octdigit_small (e : char) : is_octdigit e = true -> (e - 48 <= 7)%N.
Proof.
  unfold is_octdigit. intros H. apply andb_true_iff in H as [H1 H2].
  apply N.leb_le in H1, H2. lia.
Qed.

Lemma getuntil_encodable (stop : char) (s name rest : text) :
  getuntil stop s = Some (name, rest) -> encodable s = true ->
  encodable rest = true.
Proof.
  revert name. induction s as [|c s IH]; intros name H Hs; [discriminate|].
  cbn in H, Hs. apply andb_true_iff in Hs as [_ Hs].
  destruct (N.eqb c stop).
  - injection H as <- <-. exact Hs.
  - destruct (getuntil stop s) as [[name' rest']|]; [|discriminate].
    injection H as <- <-. eapply IH; eauto.
Qed.

Lemma addchar_encodable (c : char) (rest : result template) (t : template) :
  negb (is_surrogate c) = true ->
  (forall t', rest = Ok t' -> template_encodable t' = true) ->
  addchar c rest = Ok t -> template_encodable t = true.
Proof.
  intros Hc Hrest H. unfold addchar in H. destruct rest as [t'|]; [|discriminate].
  injection H as <-. cbn. rewrite Hc. apply Hrest. reflexivity.
Qed.

Lemma addgroup_encodable (groups index : nat) (rest : result template)
    (t : template) :
  (forall t', rest = Ok t' -> template_encodable t' = true) ->
  addgroup groups index rest = Ok t -> template_encodable t = true.
Proof.
  intros Hrest H. unfold addgroup in H.
  destruct (index <=? groups); [|discriminate].
  destruct rest as [t'|]; [|discriminate].
  injection H as <-. cbn. apply Hrest. reflexivity.
Qed.

(** A template has the characters of its replacement string and those of
    its escapes, which are below 256. *)
Lemma parse_template_encodable (fuel groups : nat) (s : text) (t : template) :
  encodable s = true ->
  parse_template_from fuel groups s = Ok t -> template_encodable t = true.
Proof.
  revert s t. induction fuel as [|fuel IH]; intros s t Hs H.
  - injection H as <-. reflexivity.
  - cbn [parse_template_from] in H.
    destruct s as [|c s1]; [injection H as <-; reflexivity|].
    cbn in Hs. apply andb_true_iff in Hs as [Hc Hs1].
    destruct (negb (N.eqb c BACKSLASH)).
    { refine (addchar_encodable _ _ _ _ _ H); [exact Hc|].
      intros t'. apply IH, Hs1. }
    destruct s1 as [|d s2]; [discriminate|].
    cbn in Hs1. apply andb_true_iff in Hs1 as [Hd Hs2].
    destruct (N.eqb d (chr "g")).
    { destruct s2 as [|lt s3]; [discriminate|].
      cbn in Hs2. apply andb_true_iff in Hs2 as [_ Hs3].
      destruct (negb (N.eqb lt (chr "<"))); [discriminate|].
      destruct (getuntil (chr ">") s3) as [[name s4]|] eqn:Eg; [|discriminate].
      destruct (negb (forallb is_digit name) || (length name =? 0));
        [discriminate|].
      refine (addgroup_encodable _ _ _ _ _ H).
      intros t'. apply IH. eapply getuntil_encodable; eauto. }
    destruct (N.eqb d (chr "0")).
    { destruct s2 as [|e s3].
      - refine (addchar_encodable _ _ _ _ _ H); [reflexivity|].
        intros t'. apply IH. reflexivity.
      - pose proof Hs2 as Hs3. cbn in Hs3.
        apply andb_true_iff in Hs3 as [_ Hs3].
        destruct (is_octdigit e) eqn:Ee.
        + destruct s3 as [|f s4].
          * refine (addchar_encodable _ _ _ _ _ H).
            -- apply small_encodable. cbn. apply octdigit_small in Ee. lia.
            -- intros t'. apply IH. reflexivity.
          * pose proof Hs3 as Hs4. cbn in Hs4.
            apply andb_true_iff in Hs4 as [_ Hs4].
            destruct (is_octdigit f).
            -- refine (addchar_encodable _ _ _ _ _ H).
               ++ apply small_encodable. generalize (octal [e; f]).
                  intros x. change 255%N with (N.ones 8) at 1.
                  rewrite N.land_ones.
                  pose proof (N.mod_upper_bound x (2 ^ 8)
                                ltac:(discriminate)) as Hb.
                  change (2 ^ 8)%N with 256%N in *. lia.
               ++ intros t'. apply IH, Hs4.
            -- refine (addchar_encodable _ _ _ _ _ H).
               ++ apply small_encodable. cbn. apply octdigit_small in Ee. lia.
               ++ intros t'. apply IH, Hs3.
        + refine (addchar_encodable _ _ _ _ _ H); [reflexivity|].
          intros t'. apply IH, Hs2. }
    destruct (is_digit d).
    { destruct s2 as [|e s3].
      - refine (addgroup_encodable _ _ _ _ _ H). intros t'. apply IH. reflexivity.
      - pose proof Hs2 as Hs3. cbn in Hs3.
        apply andb_true_iff in Hs3 as [_ Hs3].
        destruct (is_digit e).
        + destruct s3 as [|f s4].
          * refine (addgroup_encodable _ _ _ _ _ H).
            intros t'. apply IH. reflexivity.
          * pose proof Hs3 as Hs4. cbn in Hs4.
            apply andb_true_iff in Hs4 as [_ Hs4].
            destruct (is_octdigit d && is_octdigit e && is_octdigit f).
            -- destruct (255 <? octal [d; e; f])%N eqn:Eo; [discriminate|].
               refine (addchar_encodable _ _ _ _ _ H).
               ++ apply small_encodable. apply N.ltb_ge in Eo. exact Eo.
               ++ intros t'. apply IH, Hs4.
            -- refine (addgroup_encodable _ _ _ _ _ H).
               intros t'. apply IH, Hs3.
        + refine (addgroup_encodable _ _ _ _ _ H). intros t'. apply IH, Hs2. }
    destruct (escape d) as [x|] eqn:Ex.
    { refine (addchar_encodable _ _ _ _ _ H).
      - apply small_encodable. eapply escape_small, Ex.
      - intros t'. apply IH, Hs2. }
    destruct (is_letter d); [discriminate|].
    refine (addchar_encodable _ _ _ _ _ H); [reflexivity|].
    intros t' H'. refine (addchar_encodable _ _ _ _ _ H'); [exact Hd|].
    intros t''. apply IH, Hs2.
Qed.

Lemma compile_template_encodable (r : regex) (repl : text) (t : template) :
  encodable repl = true ->
  compile_template r repl = Ok t -> template_encodable t = true.
Proof.
  intros Hr H. unfold compile_template in H.
  destruct (has_backslash repl).
  - eapply parse_template_encodable; eauto.
  - injection H as <-. clear -Hr.
    induction repl as [|c repl IH]; [reflexivity|].
    cbn in *. apply andb_true_iff in Hr as [Hc Hr]. rewrite Hc. apply IH, Hr.
Qed.

Lemma re_sub_encodable (r : regex) (repl s out : text) :
  encodable repl = true -> encodable s = true ->
  re_sub r repl s = Ok out -> encodable out = true.
Proof.
  intros Hr Hs H. unfold re_sub in H.
  destruct (compile_template r repl) as [t|] eqn:Et; [|discriminate].
  injection H as <-. apply encodable_sub_scan; [|exact Hs].
  exact (compile_template_encodable _ _ _ Hr Et).
Qed.

Lemma encodable_replace_scan (old new s : text) :
  encodable new = true -> encodable s = true ->
  forall k, encodable (replace_scan old new s k) = true.
Proof.
  intros Hn. induction s as [|c s IH]; intros Hs k.
  - destruct k; reflexivity.
  - cbn in Hs. apply andb_true_iff in Hs as [Hc Hs].
    destruct k; cbn [replace_scan]; [|apply IH, Hs].
    destruct (startswith old (c :: s)).
    + rewrite encodable_app, Hn. apply IH, Hs.
    + cbn. rewrite Hc. apply IH, Hs.
Qed.

Lemma encodable_str_replace (s old new : text) :
  encodable new = true -> encodable s = true ->
  encodable (str_replace s old new) = true.
Proof.
  intros Hn Hs. destruct old as [|a old]; cbn [str_replace].
  - rewrite encodable_app, Hn. cbn [andb].
    induction s as [|c s IH]; [reflexivity|].
    cbn in Hs. apply andb_true_iff in Hs as [Hc Hs].
    cbn [flat_map]. rewrite encodable_app, (IH Hs), andb_true_r.
    unfold encodable in *. cbn [forallb]. rewrite Hc, Hn. reflexivity.
  - apply encodable_replace_scan; assumption.
Qed.

Lemma encodable_description_getter (d p : text) :
  encodable d = true -> encodable p = true ->
  encodable (description_getter d p) = true.
Proof.
  intros Hd Hp. unfold description_getter.
  rewrite !encodable_app, Hd, Hp. reflexivity.
Qed.

Lemma fix_rules_encodable (d p t out : text) :
  encodable d = true -> encodable p = true -> encodable t = true ->
  fix_rules d p t = Ok out -> encodable out = true.
Proof.
  intros Hd Hp Ht H. unfold fix_rules in H.
  repeat match type of H with
         | bind ?r _ = _ =>
           let x := fresh "t" in
           let E := fresh "E" in
           destruct r as [x|] eqn:E; [cbn [bind] in H | discriminate]
         end.
  apply re_sub_encodable in E; [|reflexivity | exact Ht].
  apply re_sub_encodable in E0; [|reflexivity | exact E].
  apply re_sub_encodable in E1;
    [|apply encodable_description_getter; assumption | exact E0].
  apply re_sub_encodable in E2; [|reflexivity | exact E1].
  apply re_sub_encodable in E3; [|reflexivity | exact E2].
  apply re_sub_encodable in E4; [|reflexivity | exact E3].
  apply re_sub_encodable in E5; [|reflexivity | exact E4].
  apply re_sub_encodable in E6; [|reflexivity | exact E5].
  apply re_sub_encodable in H; [exact H | reflexivity | exact E6].
Qed.

(** The transformation brings in nothing that cannot be written: the
    output is made of characters of the text, of the description and the
    label, of the fixed replacements and of template escapes. *)
Lemma fix_content_encodable (d p t out : text) :
  encodable d = true -> encodable p = true -> encodable t = true ->
  fix_content d p t = Ok out -> encodable out = true.
Proof.
  intros Hd Hp Ht H. unfold fix_content in H.
  destruct (fix_rules d p t) as [t1|] eqn:E; [|discriminate].
  injection H as <-.
  apply fix_rules_encodable in E; [|assumption ..].
  unfold fix_create_result.
  destruct (re_search re_create_result t1) as [[[i n] mk]|]; [|exact E].
  apply encodable_str_replace; [reflexivity | exact E].
Qed.

(** ** The driver, further *)






Lemma write_file_other (path q : string) (data : text) (w : world) :
  q <> path -> files (snd (write_file path data w)) !! q = files w !! q.
Proof.
  intros Hq. unfold write_file, put.
  destruct (faults w !! path) as [[|[kept|]]|]; destruct (encodable data);
    cbn; rewrite ?lookup_insert_ne, ?lookup_delete_ne by congruence;
    reflexivity.
Qed.

Lemma write_file_faults (path : string) (data : text) (w : world) :
  faults (snd (write_file path data w)) = faults w.
Proof.
  unfold write_file, put.
  destruct (faults w !! path) as [[|kept]|]; destruct (encodable data);
    reflexivity.
Qed.

Lemma write_file_ok (path : string) (data : text) (w : world) :
  faults w !! path = None -> encodable data = true ->
  write_file path data w
  = (Ok tt, emit (Written path data) (put path (Some data) w)).
Proof. intros Hf He. unfold write_file. rewrite Hf, He. reflexivity. Qed.



(** A run does not reach beyond its file. *)
Lemma fix_layer_file_other (file_path q : string) (name d p : text)
    (w : world) :
  q <> file_path ->
  files (snd (fix_layer_file file_path name d p w)) !! q = files w !! q.
Proof.
  intros Hq. unfold fix_layer_file. cbn [emit files trace].
  destruct (files w !! file_path) as [content|]; [|reflexivity].
  destruct (fix_content d p content) as [out|e]; [|reflexivity].
  match goal with
  | |- context [write_file ?f ?o ?v] =>
    pose proof (write_file_other f q o v Hq) as Ho;
    destruct (write_file f o v) as [[[]|e] w2]
  end; exact Ho.
Qed.

Lemma fix_layer_file_faults (file_path : string) (name d p : text)
    (w : world) :
  faults (snd (fix_layer_file file_path name d p w)) = faults w.
Proof.
  unfold fix_layer_file. cbn [emit files trace].
  destruct (files w !! file_path) as [content|]; [|reflexivity].
  destruct (fix_content d p content) as [out|e]; [|reflexivity].
  match goal with
  | |- context [write_file ?f ?o ?v] =>
    pose proof (write_file_faults f o v) as Ho;
    destruct (write_file f o v) as [[[]|e] w2]
  end; exact Ho.
Qed.

Lemma fix_layer_file_done (file_path : string) (name d p : text)
    (w : world) (content out : text) :
  files w !! file_path = Some content ->
  fix_content d p content = Ok out ->
  faults w !! file_path = None ->
  encodable out = true ->
  fix_layer_file file_path name d p w =
  (Ok tt,
   emit (Printed ("Fixed " ++ file_path)%string)
     (emit (Written file_path out)
        (put file_path (Some out)
           (emit (WasRead file_path)
              (emit (Printed ("Fixing " ++ file_path ++ "...")%string) w))))).
Proof.
  intros Hr Ho Hf He. rewrite (fix_layer_file_writes _ _ _ _ _ _ _ Hr Ho).
  rewrite write_file_ok by assumption. reflexivity.
Qed.



(** X3.  A run of [fix_layer_file], whatever its outcome, leaves every
    file other than [file_path] as it was. *)
Theorem other_files_untouched (file_path q : string) (name d p : text)
    (w : world) :
  q <> file_path ->
  files (snd (fix_layer_file file_path name d p w)) !! q = files w !! q.
Proof. apply fix_layer_file_other. Qed.

Lemma other_files_untouched_witness :
  let w := {| files := {[ "a.dart" := old_layer; "b.dart" := str "b" ]};
              faults := {[ "a.dart" := Broken None ]};
              trace := [] |} in
  files (snd (fix_layer_file "a.dart" (str "A") (str "d") (str "p") w))
    !! "b.dart" = files w !! "b.dart".
Proof.
  intros w.
  apply (other_files_untouched "a.dart" "b.dart" (str "A") (str "d")
           (str "p") w).
  discriminate.
Defined.



Lemma main_templates_ok :
  template_ok post_processing_description post_processing_priority /\
  template_ok word_order_description word_order_priority.
Proof. split; apply plain_template_ok; reflexivity. Qed.


(** X5.  If both files can be read and written and their texts have no
    surrogate, [main] succeeds; afterwards each of the two files holds the
    transformation of what it held before, the first one not being touched
    by the run on the second, and every other file is as it was. *)
Theorem main_rewrites_both (w : world) (c1 c2 : text) :
  files w !! post_processing_path = Some c1 ->
  files w !! word_order_path = Some c2 ->
  faults w !! post_processing_path = None ->
  faults w !! word_order_path = None ->
  encodable c1 = true -> encodable c2 = true ->
  exists o1 o2 w',
    fix_content post_processing_description post_processing_priority c1
      = Ok o1 /\
    fix_content word_order_description word_order_priority c2 = Ok o2 /\
    main w = (Ok tt, w') /\
    files w' !! post_processing_path = Some o1 /\
    files w' !! word_order_path = Some o2 /\
    (forall q, q <> post_processing_path -> q <> word_order_path ->
       files w' !! q = files w !! q) /\
    exists evs,
      trace w' = trace w ++ evs /\
      List.filter
        (fun e => match e with Written _ _ => true | _ => false end) evs
      = [Written post_processing_path o1; Written word_order_path o2].
Proof.
  intros H1 H2 F1 F2 K1 K2.
  destruct main_templates_ok as [Hpp Hwo].
  destruct (fix_content_ok _ _ c1 Hpp) as [o1 Ho1].
  destruct (fix_content_ok _ _ c2 Hwo) as [o2 Ho2].
  assert (E1 : encodable o1 = true)
    by (eapply fix_content_encodable; [| | exact K1 | exact Ho1]; reflexivity).
  assert (E2 : encodable o2 = true)
    by (eapply fix_content_encodable; [| | exact K2 | exact Ho2]; reflexivity).
  exists o1, o2. eexists. split; [exact Ho1|]. split; [exact Ho2|].
  split.
  - unfold main.
    rewrite (fix_layer_file_done post_processing_path _ _ _ _ _ _
               H1 Ho1 F1 E1).
    rewrite (fix_layer_file_done word_order_path _ _ _ _ c2 o2);
      [reflexivity | | exact Ho2 | exact F2 | exact E2].
    cbn [emit put files]. rewrite lookup_insert_ne by discriminate. exact H2.
  - cbn [emit put files trace].
    split; [rewrite lookup_insert_ne by discriminate; apply lookup_insert_eq|].
    split; [apply lookup_insert_eq|].
    split.
    + intros q Hq1 Hq2. rewrite !lookup_insert_ne by congruence. reflexivity.
    + eexists. rewrite <- !app_assoc. split; reflexivity.
Qed.

Lemma main_rewrites_both_witness :
  let w := {| files := {[ post_processing_path := str "class P {}";
                          word_order_path := old_layer ]};
              faults := empty;
              trace := [] |} in
  exists o1 o2 w',
    fix_content post_processing_description post_processing_priority
      (str "class P {}") = Ok o1 /\
    fix_content word_order_description word_order_priority old_layer = Ok o2 /\
    main w = (Ok tt, w') /\
    files w' !! post_processing_path = Some o1 /\
    files w' !! word_order_path = Some o2 /\
    (forall q, q <> post_processing_path -> q <> word_order_path ->
       files w' !! q = files w !! q) /\
    exists evs,
      trace w' = trace w ++ evs /\
      List.filter
        (fun e => match e with Written _ _ => true | _ => false end) evs
      = [Written post_processing_path o1; Written word_order_path o2].
Proof.
  intros w. apply (main_rewrites_both w (str "class P {}") old_layer).
  - vm_compute. reflexivity.
  - vm_compute. reflexivity.
  - reflexivity.
  - reflexivity.
  - reflexivity.
  - reflexivity.
Defined.





(** ** The rules with free parts *)

(** A match of [w] behind a text in which no match begins: the text is
    kept, [w] gives way to its replacement, the scan goes on behind it. *)
Lemma sub_scan_at (r : regex) (t : template) (a w b E : text) (mk : marks) :
  (forall j, j < length a -> match_at r (skipn j (a ++ w ++ b)) = None) ->
  w <> [] ->
  match_at r (w ++ b) = Some (length w, mk) ->
  expand t (w ++ b) (length w) mk = E ->
  sub_scan r t (a ++ w ++ b) 0 = a ++ E ++ sub_scan r t b 0.
Proof.
  intros Ha Hw Hm He. rewrite sub_scan_first by exact Ha. f_equal.
  destruct (P_cons w Hw) as (c & w' & Ew).
  assert (Hlen : length w = S (length w')) by (rewrite Ew; reflexivity).
  rewrite Hlen in Hm, He.
  rewrite (sub_scan_match _ _ _ _ _ Hm), He, <- Hlen, skipn_app_exact.
  reflexivity.
Qed.

Lemma match_old_debugInfo (u1 u2 u3 b : text) :
  forallb is_space u1 = true -> forallb is_space u2 = true ->
  forallb is_space u3 = true ->
  match_at re_debugInfo (old_debugInfo u1 u2 u3 ++ b) =
  Some (length (old_debugInfo u1 u2 u3), []).
Proof.
  intros H1 H2 H3. unfold match_at, old_debugInfo.
  rewrite re_debugInfo_ops, exec_lits, <- !app_assoc, startswith_app,
    skipn_app_exact.
  cbn [exec].
  erewrite greedy_max; [reflexivity | exact H1 | reflexivity | lia |].
  rewrite exec_lits, startswith_app, skipn_app_exact. cbn [exec].
  erewrite greedy_max; [reflexivity | exact H2 | reflexivity | lia |].
  rewrite exec_lits, startswith_app, skipn_app_exact. cbn [exec].
  erewrite greedy_max; [reflexivity | exact H3 | reflexivity | lia |].
  rewrite <- (app_nil_r (lits debugInfo_close)), exec_lits, startswith_app.
  cbn [exec]. rewrite !length_app. do 2 f_equal. lia.
Qed.

(** X7.  The [LayerDebugInfo] statement is rewritten whatever white space,
    line breaks or none at all, stands between its parts: behind a text in
    which no match of the rule begins, the statement gives way to
    [final startTime = DateTime.now();]. *)
Theorem debugInfo_any_layout (a u1 u2 u3 b : text) :
  forallb is_space u1 = true -> forallb is_space u2 = true ->
  forallb is_space u3 = true ->
  (forall j, j < length a ->
     match_at re_debugInfo (skipn j (a ++ old_debugInfo u1 u2 u3 ++ b))
     = None) ->
  exists b',
    fix_debugInfo b = Ok b' /\
    fix_debugInfo (a ++ old_debugInfo u1 u2 u3 ++ b)
    = Ok (a ++ new_debugInfo ++ b').
Proof.
  intros H1 H2 H3 Ha. rewrite !fix_debugInfo_scan.
  eexists. split; [reflexivity|]. f_equal.
  apply (sub_scan_at _ _ _ _ _ _ [] Ha).
  - unfold old_debugInfo. discriminate.
  - apply match_old_debugInfo; assumption.
  - apply expand_literal.
Qed.

Lemma debugInfo_any_layout_witness :
  exists b',
    fix_debugInfo (NL :: str "    work();") = Ok b' /\
    fix_debugInfo
      (str "    "
       ++ old_debugInfo (NL :: str "      ") (NL :: str "      ")
            (NL :: str "    ")
       ++ NL :: str "    work();")
    = Ok (str "    " ++ new_debugInfo ++ b').
Proof.
  apply (debugInfo_any_layout (str "    ") (NL :: str "      ")
           (NL :: str "      ") (NL :: str "    ")
           (NL :: str "    work();")); try reflexivity.
  intros j Hj. simpl in Hj.
  do 4 (destruct j as [|j]; [vm_compute; reflexivity|]). lia.
Defined.

Lemma match_old_details (k v b : text) :
  k <> [] -> no_quote k = true -> v <> [] -> no_semicolon v = true ->
  match_at re_details (old_details k v ++ b) =
  Some (length (old_details k v),
        [(3, length details_head + length k + length details_mid + length v);
         (2, length details_head + length k + length details_mid);
         (1, length details_head + length k);
         (0, length details_head)]).
Proof.
  intros Hk Hkq Hv Hvs. unfold match_at, old_details.
  rewrite re_details_ops, exec_lits, <- !app_assoc, startswith_app,
    skipn_app_exact.
  cbn [exec].
  erewrite greedy_max; [reflexivity | exact Hkq | reflexivity | |].
  { destruct k; [congruence | simpl; lia]. }
  cbn [exec]. rewrite exec_lits, startswith_app, skipn_app_exact.
  cbn [exec].
  erewrite greedy_max; [reflexivity | exact Hvs | reflexivity | |].
  { destruct v; [congruence | simpl; lia]. }
  cbn [exec].
  rewrite <- (app_nil_r (lits details_tail)), exec_lits, startswith_app.
  cbn [exec]. rewrite !length_app, !Nat.add_0_l, !Nat.add_assoc.
  reflexivity.
Qed.

Lemma expand_old_details (k v b : text) n :
  expand details_template_items (old_details k v ++ b) n
    [(3, length details_head + length k + length details_mid + length v);
     (2, length details_head + length k + length details_mid);
     (1, length details_head + length k);
     (0, length details_head)]
  = new_details_of k v.
Proof.
  unfold details_template_items, new_details_of, old_details.
  rewrite expand_app, expand_literal. cbn [expand].
  rewrite expand_app, expand_literal. cbn [expand].
  rewrite expand_literal. f_equal.
  cbn [group mark Nat.mul Nat.add Nat.eqb].
  rewrite <- !app_assoc.
  f_equal; [apply slice_at; lia|]. do 2 f_equal.
  replace (details_head ++ k ++ details_mid ++ v ++ details_tail ++ b)
    with ((details_head ++ k ++ details_mid) ++ v ++ details_tail ++ b)
    by (rewrite <- !app_assoc; reflexivity).
  apply slice_at; [rewrite !length_app|]; lia.
Qed.

(** X8.  An assignment [debugInfo.details['k'] = v;] whose key is not
    empty and has no apostrophe and whose value is not empty and has no
    semicolon, behind a text in which no match of the rule begins, gives
    way to the comment [// k: v (moved to additionalInfo)], with the key
    and the value as they were. *)
Theorem details_become_comment (a k v b : text) :
  k <> [] -> no_quote k = true -> v <> [] -> no_semicolon v = true ->
  (forall j, j < length a ->
     match_at re_details (skipn j (a ++ old_details k v ++ b)) = None) ->
  exists b',
    fix_details b = Ok b' /\
    fix_details (a ++ old_details k v ++ b)
    = Ok (a ++ new_details_of k v ++ b').
Proof.
  intros Hk Hkq Hv Hvs Ha. rewrite !fix_details_scan.
  eexists. split; [reflexivity|]. f_equal.
  eapply (sub_scan_at _ _ _ _ _ _ _ Ha).
  - unfold old_details. discriminate.
  - apply match_old_details; assumption.
  - apply expand_old_details.
Qed.

Lemma details_become_comment_witness :
  exists b',
    fix_details [NL] = Ok b' /\
    fix_details (str "  " ++ old_details (str "words") (str "text.length")
                 ++ [NL])
    = Ok (str "  " ++ new_details_of (str "words") (str "text.length") ++ b').
Proof.
  apply (details_become_comment (str "  ") (str "words") (str "text.length")
           [NL]); try reflexivity; try discriminate.
  intros j Hj. simpl in Hj.
  do 2 (destruct j as [|j]; [vm_compute; reflexivity|]). lia.
Defined.

Lemma re_import_result_ops :
  ops re_import_result =
  lits (str "import '")
  ++ OneOf (CAny false) :: OneOf (CAny false)
  :: lits (str "/models/translation_result.dart';" ++ [NL]).
Proof. reflexivity. Qed.

Lemma re_import_exceptions_ops :
  ops re_import_exceptions =
  lits (str "import '")
  ++ OneOf (CAny false) :: OneOf (CAny false)
  :: lits (str "/utils/exceptions.dart';" ++ [NL]).
Proof. reflexivity. Qed.

Lemma match_import (r : regex) (path : text) (c1 c2 : char) (b : text) :
  ops r =
    lits (str "import '")
    ++ OneOf (CAny false) :: OneOf (CAny false) :: lits path ->
  N.eqb c1 NL = false -> N.eqb c2 NL = false ->
  match_at r ((str "import '" ++ c1 :: c2 :: path) ++ b) =
  Some (length (str "import '" ++ c1 :: c2 :: path), []).
Proof.
  intros Hr H1 H2. unfold match_at.
  rewrite Hr, exec_lits, <- !app_assoc, startswith_app, skipn_app_exact.
  cbn [exec app in_class orb]. rewrite H1, H2. cbn [negb].
  rewrite <- (app_nil_r (lits path)), exec_lits, startswith_app.
  cbn [exec]. rewrite !length_app. do 2 f_equal; simpl; lia.
Qed.

(** X9.  The dots in [../models] and [../utils] of the import patterns are
    not escaped, so they stand for any two characters other than a line
    break: an import line of [translation_result.dart] or of
    [exceptions.dart] is taken out whatever the two characters before the
    directory are, [..] or others. *)
Theorem imports_removed (a b : text) (c1 c2 : char) :
  c1 <> NL -> c2 <> NL ->
  ((forall j, j < length a ->
      match_at re_import_result
        (skipn j (a ++ import_result_line c1 c2 ++ b)) = None) ->
   exists b',
     fix_import_result b = Ok b' /\
     fix_import_result (a ++ import_result_line c1 c2 ++ b) = Ok (a ++ b')) /\
  ((forall j, j < length a ->
      match_at re_import_exceptions
        (skipn j (a ++ import_exceptions_line c1 c2 ++ b)) = None) ->
   exists b',
     fix_import_exceptions b = Ok b' /\
     fix_import_exceptions (a ++ import_exceptions_line c1 c2 ++ b)
     = Ok (a ++ b')).
Proof.
  intros H1 H2. apply N.eqb_neq in H1, H2. split; intros Ha.
  - rewrite !fix_import_result_scan.
    eexists. split; [reflexivity|]. f_equal.
    apply (sub_scan_at _ [] _ _ _ [] [] Ha).
    + unfold import_result_line. discriminate.
    + apply (match_import _ _ _ _ _ re_import_result_ops H1 H2).
    + reflexivity.
  - rewrite !fix_import_exceptions_scan.
    eexists. split; [reflexivity|]. f_equal.
    apply (sub_scan_at _ [] _ _ _ [] [] Ha).
    + unfold import_exceptions_line. discriminate.
    + apply (match_import _ _ _ _ _ re_import_exceptions_ops H1 H2).
    + reflexivity.
Qed.

Lemma imports_removed_witness :
  exists b1 b2,
    fix_import_result (str "class A {}") = Ok b1 /\
    fix_import_result
      (import_result_line (chr "x") (chr "y") ++ str "class A {}") = Ok b1 /\
    fix_import_exceptions (str "class A {}") = Ok b2 /\
    fix_import_exceptions
      (import_exceptions_line (chr "x") (chr "y") ++ str "class A {}")
    = Ok b2.
Proof.
  destruct (imports_removed [] (str "class A {}") (chr "x") (chr "y"))
    as [H1 H2]; [discriminate | discriminate |].
  destruct H1 as (b1 & Hb1 & E1); [intros j Hj; simpl in Hj; lia|].
  destruct H2 as (b2 & Hb2 & E2); [intros j Hj; simpl in Hj; lia|].
  exists b1, b2. auto.
Defined.

(** ** The signature of [process] and the initial text *)

Lemma fix_content_no_old_process (d p t out : text) :
  fix_content d p t = Ok out -> ~ occurs old_process out.
Proof.
  unfold fix_content, fix_rules.
  destruct (fix_import_result t) as [t1|]; [|discriminate]. cbn [bind].
  destruct (fix_import_exceptions t1) as [t2|]; [|discriminate]. cbn [bind].
  destruct (fix_getters d p t2) as [t3|]; [|discriminate]. cbn [bind].
  destruct (fix_canHandle t3) as [t4|]; [|discriminate]. cbn [bind].
  rewrite fix_process_eq. cbn [bind].
  rewrite fix_debugInfo_scan. cbn [bind].
  rewrite fix_currentText_scan. cbn [bind].
  rewrite fix_call_scan. cbn [bind].
  rewrite fix_details_scan. cbn [bind].
  intros [= <-].
  apply fix_create_result_keeps_absent; [discriminate | reflexivity|].
  apply (sub_scan_keeps_absent old_process
           [new_details_head; new_details_mid; new_details_tail]
           re_details details_template_items);
    [discriminate | reflexivity | apply editing_details|].
  apply (sub_scan_keeps_absent old_process [new_call_head]
           re_call call_template_items);
    [discriminate | reflexivity | apply editing_call|].
  apply (sub_scan_keeps_absent old_process [new_currentText]
           re_currentText (List.map TChar new_currentText));
    [discriminate | reflexivity | apply editing_constant|].
  apply (sub_scan_keeps_absent old_process [new_debugInfo]
           re_debugInfo (List.map TChar new_debugInfo));
    [discriminate | reflexivity | apply editing_constant|].
  apply no_occurrence; [discriminate | reflexivity | reflexivity].
Qed.

(** X10.  The rule for [process] rewrites every occurrence of the old
    signature [Future<LayerResult> process(TranslationContext context)] in
    the text it is given, the text left and right of an occurrence being
    rewritten on its own; afterwards the old signature occurs nowhere, and
    it occurs nowhere in what the whole transformation returns. *)
Theorem process_signature_rewritten (t : text) :
  (exists t1,
     fix_process t = Ok t1 /\ ~ occurs old_process t1 /\
     forall a b, t = a ++ old_process ++ b ->
       exists a' b', fix_process a = Ok a' /\ fix_process b = Ok b' /\
         t1 = a' ++ new_process ++ b') /\
  (forall d p out, fix_content d p t = Ok out -> ~ occurs old_process out).
Proof.
  split.
  - exists (replaced old_process new_process t).
    split; [apply fix_process_eq|]. split.
    + apply no_occurrence; [discriminate | reflexivity | reflexivity].
    + intros a b ->. eexists _, _.
      split; [apply fix_process_eq|]. split; [apply fix_process_eq|].
      apply replaced_each; [discriminate | reflexivity].
  - intros d p out. apply fix_content_no_old_process.
Qed.

Lemma process_signature_rewritten_witness :
  exists t1 out,
    fix_process (str "  " ++ old_process ++ str " async {") = Ok t1 /\
    t1 = str "  " ++ new_process ++ str " async {" /\
    fix_content (str "d") (str "p") (str "  " ++ old_process ++ str " async {")
      = Ok out /\
    ~ occurs old_process out.
Proof.
  destruct (process_signature_rewritten
              (str "  " ++ old_process ++ str " async {"))
    as ((t1 & H1 & _ & H5) & H6).
  exists t1. eexists. split; [exact H1|].
  destruct (H5 (str "  ") (str " async {") eq_refl)
    as (a' & b' & Ha & Hb & ->).
  vm_compute in Ha, Hb. injection Ha as <-. injection Hb as <-.
  split; [reflexivity|].
  assert (E : fix_content (str "d") (str "p")
                (str "  " ++ old_process ++ str " async {")
              = Ok (str "  " ++ new_process ++ str " async {"))
    by (vm_compute; reflexivity).
  split; [exact E|]. apply (H6 _ _ _ E).
Defined.

Lemma fix_content_no_old_currentText (d p t out : text) :
  fix_content d p t = Ok out -> ~ occurs old_currentText out.
Proof.
  unfold fix_content, fix_rules.
  destruct (fix_import_result t) as [t1|]; [|discriminate]. cbn [bind].
  destruct (fix_import_exceptions t1) as [t2|]; [|discriminate]. cbn [bind].
  destruct (fix_getters d p t2) as [t3|]; [|discriminate]. cbn [bind].
  destruct (fix_canHandle t3) as [t4|]; [|discriminate]. cbn [bind].
  destruct (fix_process t4) as [t5|]; [|discriminate]. cbn [bind].
  destruct (fix_debugInfo t5) as [t6|]; [|discriminate]. cbn [bind].
  rewrite fix_currentText_eq. cbn [bind].
  rewrite fix_call_scan. cbn [bind].
  rewrite fix_details_scan. cbn [bind].
  intros [= <-].
  apply fix_create_result_keeps_absent; [discriminate | reflexivity|].
  apply (sub_scan_keeps_absent old_currentText
           [new_details_head; new_details_mid; new_details_tail]
           re_details details_template_items);
    [discriminate | reflexivity | apply editing_details|].
  apply (sub_scan_keeps_absent old_currentText [new_call_head]
           re_call call_template_items);
    [discriminate | reflexivity | apply editing_call|].
  apply no_occurrence; [discriminate | reflexivity | reflexivity].
Qed.

(** X11.  The rule for the initial text rewrites every occurrence of
    [String currentText = context.translatedText ?? '';] in the text it is
    given, so that the text falls back to the parameter [text]; afterwards
    the old statement occurs nowhere, and it occurs nowhere in what the
    whole transformation returns. *)
Theorem currentText_rewritten (t : text) :
  (exists t1,
     fix_currentText t = Ok t1 /\ ~ occurs old_currentText t1 /\
     forall a b, t = a ++ old_currentText ++ b ->
       exists a' b',
         fix_currentText a = Ok a' /\ fix_currentText b = Ok b' /\
         t1 = a' ++ new_currentText ++ b') /\
  (forall d p out,
     fix_content d p t = Ok out -> ~ occurs old_currentText out).
Proof.
  split.
  - exists (replaced old_currentText new_currentText t).
    split; [apply fix_currentText_eq|]. split.
    + apply no_occurrence; [discriminate | reflexivity | reflexivity].
    + intros a b ->. eexists _, _.
      split; [apply fix_currentText_eq|].
      split; [apply fix_currentText_eq|].
      apply replaced_each; [discriminate | reflexivity].
  - intros d p out. apply fix_content_no_old_currentText.
Qed.

Lemma currentText_rewritten_witness :
  exists t1 out,
    fix_currentText (str "    " ++ old_currentText ++ [NL]) = Ok t1 /\
    t1 = str "    " ++ new_currentText ++ [NL] /\
    fix_content (str "d") (str "p") (str "    " ++ old_currentText ++ [NL])
      = Ok out /\
    ~ occurs old_currentText out.
Proof.
  destruct (currentText_rewritten (str "    " ++ old_currentText ++ [NL]))
    as ((t1 & H1 & _ & H5) & H6).
  exists t1. eexists. split; [exact H1|].
  destruct (H5 (str "    ") [NL] eq_refl) as (a' & b' & Ha & Hb & ->).
  vm_compute in Ha, Hb. injection Ha as <-. injection Hb as <-.
  split; [reflexivity|].
  assert (E : fix_content (str "d") (str "p")
                (str "    " ++ old_currentText ++ [NL])
              = Ok (str "    " ++ new_currentText ++ [NL]))
    by (vm_compute; reflexivity).
  split; [exact E|]. apply (H6 _ _ _ E).
Defined.

(** ** The getters, every pair *)

(** X12.  For a description and a priority label without a backslash, the
    rule for the getters expands every pair of [name] and [priority]
    getters, not only the first: the text left and right of a pair is
    rewritten on its own. *)
Theorem getters_each_pair (d p a b : text) :
  has_backslash d = false -> has_backslash p = false ->
  exists a' b',
    fix_getters d p a = Ok a' /\ fix_getters d p b = Ok b' /\
    fix_getters d p (a ++ old_getters ++ b)
    = Ok (a' ++ description_getter d p ++ b').
Proof.
  intros Hd Hp. eexists _, _.
  split; [apply fix_getters_eq; assumption|].
  split; [apply fix_getters_eq; assumption|].
  rewrite fix_getters_eq by assumption. f_equal.
  apply replaced_each; [discriminate | reflexivity].
Qed.

Lemma getters_each_pair_witness :
  exists a' b',
    fix_getters (str "First") (str "one") (old_getters ++ [NL]) = Ok a' /\
    fix_getters (str "First") (str "one") [NL] = Ok b' /\
    fix_getters (str "First") (str "one")
      ((old_getters ++ [NL]) ++ old_getters ++ [NL])
    = Ok (a' ++ description_getter (str "First") (str "one") ++ b').
Proof.
  apply (getters_each_pair (str "First") (str "one") (old_getters ++ [NL])
           [NL]); reflexivity.
Defined.

(** ** The block step, further *)

Lemma run_lazy_any (p : pattern) (x w : text) :
  run p w -> run (Repeat false 0 (CAny true) :: p) (x ++ w).
Proof.
  intros H. constructor; [|lia | exact H].
  apply forallb_forall. intros c _. reflexivity.
Qed.

Lemma run_no_space (p : pattern) (w : text) :
  run p w -> run (Repeat true 0 CSpace :: p) w.
Proof.
  intros H.
  apply (run_repeat true 0 CSpace p [] w); [reflexivity | simpl; lia | exact H].
Qed.

(** X13.  Wherever the text has [LayerResult _createResult(], behind it a
    [) {] and behind that a closing brace, the block pattern has a match
    and the new method is in what the block step returns. *)
Theorem create_result_found (a x y b : text) :
  let t := a ++ create_result_head ++ x ++ create_result_open ++ y
           ++ chr "}" :: b in
  (exists i n mk, re_search re_create_result t = Some (i, n, mk)) /\
  occurs new_create_result (fix_create_result t).
Proof.
  intros t.
  assert (Hs : exists i n mk, re_search re_create_result t = Some (i, n, mk)).
  { destruct (re_search re_create_result t) as [[[i n] mk]|] eqn:E;
      [eauto|].
    exfalso. unfold re_search in E. rewrite search_from_none in E.
    specialize (E (length a)). unfold t in E.
    rewrite skipn_app_exact in E. revert E.
    replace (create_result_head ++ x ++ create_result_open ++ y
             ++ chr "}" :: b)
      with ((create_result_head ++ x ++ create_result_open ++ y
             ++ [chr "}"]) ++ b)
      by (rewrite <- !app_assoc; reflexivity).
    apply match_at_complete. rewrite re_create_result_ops.
    apply run_lits, run_no_space, run_lazy_any, run_no_space.
    apply run_lits, run_lazy_any. repeat constructor. }
  split; [exact Hs|].
  destruct Hs as (i & n & mk & Hs). unfold fix_create_result. rewrite Hs.
  cbn [group]. unfold re_search in Hs.
  apply search_from_some in Hs as (k & Hk & _ & Hm & _).
  simpl in Hk. subst i.
  destruct (match_at_headed _ _ _ _ _ _ re_create_result_ops Hm) as [_ Hn].
  destruct (match_at_sound _ _ _ _ Hm) as (Hlen & Hsplit & _).
  assert (Hne : firstn n (skipn k t) <> []).
  { intros E. apply (f_equal (@length _)) in E.
    rewrite length_firstn in E. simpl in *. lia. }
  rewrite str_replace_replaced by exact Hne.
  apply replaced_occurs; [exact Hne|].
  exists (firstn k t), (skipn n (skipn k t)).
  rewrite <- Hsplit. symmetry. apply firstn_skipn.
Qed.

(** ** Texts without the fixed words *)

Lemma headed_absent (r : regex) (L : text) (p : pattern) (t : text) :
  ops r = lits L ++ p -> ~ occurs L t -> re_search r t = None.
Proof.
  intros Hr Ht. unfold re_search. apply search_from_none. intros k.
  destruct (match_at r (skipn k t)) as [[n mk]|] eqn:E; [|reflexivity].
  exfalso. apply Ht, occurs_at. exists k.
  apply (match_at_headed _ _ _ _ _ _ Hr E).
Qed.

Lemma literal_absent (r : regex) (P : text) (t : text) :
  literal_rule r P -> ~ occurs P t -> re_search r t = None.
Proof.
  intros [mk0 Hr] Ht. unfold re_search. apply search_from_none. intros k.
  rewrite Hr. rewrite not_occurs_at in Ht. rewrite Ht. reflexivity.
Qed.

(** A text that no pattern matches comes out as it went in, if the
    template is well formed. *)
Lemma unmatched_unchanged (d p t : text) :
  template_ok d p ->
  Forall (fun r => re_search r t = None)
    [re_import_result; re_import_exceptions; re_getters; re_canHandle;
     re_process; re_debugInfo; re_currentText; re_call; re_details;
     re_create_result] ->
  fix_content d p t = Ok t.
Proof.
  intros Htpl H.
  repeat match goal with
         | H : Forall _ (_ :: _) |- _ => inversion_clear H
         end.
  unfold fix_content, fix_rules.
  unfold fix_import_result, fix_import_exceptions, fix_getters, fix_canHandle,
    fix_process, fix_debugInfo, fix_currentText, fix_call, fix_details.
  repeat (rewrite re_sub_unmatched;
          [cbn [bind] | first [exact Htpl | eexists; vm_compute; reflexivity]
                      | assumption]).
  unfold fix_create_result.
  match goal with H : re_search re_create_result t = None |- _ => rewrite H end.
  reflexivity.
Qed.

(** X14.  A text that contains none of the nine fixed texts that the
    patterns begin with ([import '], the old getters, the old signatures,
    [final debugInfo = LayerDebugInfo(], the old initial text, the head of
    an old call, [debugInfo.details['] and [LayerResult _createResult(]) is
    returned as it is, for every well-formed template. *)
Theorem no_anchor_word_unchanged (d p t : text) :
  template_ok d p ->
  Forall (fun w => ~ occurs w t) anchor_words ->
  fix_content d p t = Ok t.
Proof.
  intros Htpl H. unfold anchor_words in H.
  repeat match goal with
         | H : Forall _ (_ :: _) |- _ => inversion_clear H
         end.
  apply unmatched_unchanged; [exact Htpl|].
  repeat constructor.
  - eapply headed_absent; [apply re_import_result_ops | assumption].
  - eapply headed_absent; [apply re_import_exceptions_ops | assumption].
  - eapply literal_absent; [apply literal_group, re_getters_ops | assumption].
  - eapply literal_absent;
      [apply literal_plain, re_canHandle_ops | assumption].
  - eapply literal_absent; [apply literal_plain, re_process_ops | assumption].
  - eapply headed_absent; [apply re_debugInfo_ops | assumption].
  - eapply literal_absent;
      [apply literal_plain, re_currentText_ops | assumption].
  - eapply headed_absent; [apply re_call_ops | assumption].
  - eapply headed_absent; [apply re_details_ops | assumption].
  - eapply headed_absent; [apply re_create_result_ops | assumption].
Qed.

Lemma no_anchor_word_unchanged_witness :
  fix_content (str "It's a layer") (str "wordOrder")
    (lines ["class Helper {"; "  int total = 0;"; "}"; ""])
  = Ok (lines ["class Helper {"; "  int total = 0;"; "}"; ""]).
Proof.
  apply no_anchor_word_unchanged.
  - apply plain_template_ok; reflexivity.
  - repeat constructor; apply occurs_dec_false; vm_compute; reflexivity.
Defined.

(** ** Rules that settle *)

(** X15.  Each of the four rules with a fixed replacement, the rules for
    the signature of [canHandle], for the signature of [process], for the
    [LayerDebugInfo] statement and for [currentText], never matches in its
    own output: applied to its output, it changes nothing, whatever the
    text.  And what the whole transformation returns is left as it is by
    the rules for [canHandle], for [process] and for [currentText]. *)
Theorem constant_rules_idempotent (t : text) :
  (exists t', fix_canHandle t = Ok t' /\ fix_canHandle t' = Ok t') /\
  (exists t', fix_process t = Ok t' /\ fix_process t' = Ok t') /\
  (exists t', fix_debugInfo t = Ok t' /\ fix_debugInfo t' = Ok t') /\
  (exists t', fix_currentText t = Ok t' /\ fix_currentText t' = Ok t') /\
  (forall d p out,
     fix_content d p t = Ok out ->
     fix_canHandle out = Ok out /\ fix_process out = Ok out /\
     fix_currentText out = Ok out).
Proof.
  split; [apply fix_canHandle_idem|].
  split; [apply fix_process_idem|].
  split; [apply fix_debugInfo_idem|].
  split; [apply fix_currentText_idem|].
  intros d p out H.
  rewrite fix_canHandle_eq, fix_process_eq, fix_currentText_eq.
  split; [|split]; f_equal; apply replaced_absent; apply not_occurs_at.
  - apply (fix_content_no_old_canHandle _ _ _ _ H).
  - apply (fix_content_no_old_process _ _ _ _ H).
  - apply (fix_content_no_old_currentText _ _ _ _ H).
Qed.
